(** * A shallow embedding of django-modeltranslation

    Covered: the attribute descriptor of a translated field
    ([TranslationDescriptor] in [fields.py]), the save-signal handlers
    ([pre_save_fix_handler] / [post_save_fix_handler] in [translator.py])
    wrapped around Django's save, the translator registry
    ([Translator.register], [Translator.get_options_for_model],
    [add_localized_fields], [create_translation_field]) and the
    query-set update rewriting of the multilingual manager. *)

From stdpp Require Import base gmap sets list strings.
From Stdlib Require Import ZArith Lia.

Open Scope string_scope.

(** ** Python values, exceptions and a state/error monad *)

(** The values an attribute of a model instance holds here. *)
Inductive pyval :=
| PNone
| PStr (s : string)
| PInt (z : Z).

Global Instance pyval_eq_dec : EqDecision pyval.
Proof. solve_decision. Defined.

(** Python truthiness: [None], [''] and [0] are false. *)
Definition truthy (v : pyval) : bool :=
  match v with
  | PNone => false
  | PStr s => negb (bool_decide (s = ""))
  | PInt z => negb (Z.eqb z 0)
  end.

(** The exceptions the modelled code raises or propagates. *)
Inductive exc :=
| AlreadyRegistered
| NotRegistered
| ImproperlyConfigured
| ValueError
| FieldDoesNotExist
| AttributeError
| KeyError
| DatabaseError.

Global Instance exc_eq_dec : EqDecision exc.
Proof. solve_decision. Defined.

Inductive res (A : Type) :=
| Ok (a : A)
| Err (e : exc).
Arguments Ok {A} a.
Arguments Err {A} e.

(** Python code mutates state and may raise; the mutations done before a
    raise stay visible.  [M S A] threads the state [S] and keeps it on
    error. *)
Definition M (S A : Type) := S -> res A * S.

Definition ret {S A} (a : A) : M S A := fun s => (Ok a, s).
Definition raise {S A} (e : exc) : M S A := fun s => (Err e, s).
Definition bindM {S A B} (m : M S A) (k : A -> M S B) : M S B :=
  fun s => match m s with
           | (Ok a, s') => k a s'
           | (Err e, s') => (Err e, s')
           end.
Definition get_st {S} : M S S := fun s => (Ok s, s).
Definition put_st {S} (s : S) : M S unit := fun _ => (Ok tt, s).
Definition modify_st {S} (f : S -> S) : M S unit := fun s => (Ok tt, f s).

Notation "'let!' x ':=' m 'in' k" := (bindM m (fun x => k))
  (at level 200, x name, m at level 100, k at level 200).

(** [for x in xs: body(x)]: stops at the first raise. *)
Fixpoint forM {S A} (xs : list A) (body : A -> M S unit) : M S unit :=
  match xs with
  | [] => ret tt
  | x :: xs' => let! _ := body x in forM xs' body
  end.

(** A loop that carries an accumulator. *)
Fixpoint foldM {S A B} (f : B -> A -> M S B) (xs : list A) (acc : B)
  : M S B :=
  match xs with
  | [] => ret acc
  | x :: xs' => let! acc' := f acc x in foldM f xs' acc'
  end.

Definition lift_res {S A} (r : res A) : M S A :=
  fun s => match r with
           | Ok a => (Ok a, s)
           | Err e => (Err e, s)
           end.

(** ** [modeltranslation.utils] *)

(** Modelled from the spec: [build_localized_fieldname] of
    [modeltranslation/utils.py] (not among the sources) names the shadow
    field [<logical_name>_<language_code>]. *)
Definition build_localized_fieldname (field_name lang : string) : string :=
  field_name +:+ "_" +:+ lang.

(** ** [TranslationDescriptor] (fields.py) *)

(** A model instance: its [__dict__].  Shadow fields of text kinds are plain
    instance attributes, so [hasattr]/[getattr]/[setattr] on them go to
    [__dict__]. *)
Record instance := mk_instance { idict : gmap string pyval }.

Definition setattr_inst (i : instance) (name : string) (v : pyval)
  : instance :=
  mk_instance (<[name := v]> (idict i)).

(** [TranslationDescriptor(field, fallback_value)]: [descr_field] is
    [self.field.name]; [PNone] as [descr_fallback] is Python's [None]. *)
Record descriptor := mk_descriptor {
  descr_field : string;
  descr_fallback : pyval
}.

(** [__set__]: [lang] is what [get_language()] returns. *)
Definition descr_set (d : descriptor) (lang : string) (i : instance)
    (value : pyval) : instance :=
  let loc_field_name := build_localized_fieldname (descr_field d) lang in
  (* Update the translation field of the current language *)
  let i1 := setattr_inst i loc_field_name value in
  (* Update original field via __dict__ *)
  mk_instance (<[descr_field d := value]> (idict i1)).

(** [__get__]: [None] for the instance is access through the class.  When
    [hasattr] fails the Python method falls off its end and returns
    [None]. *)
Definition descr_get (d : descriptor) (lang : string) (oi : option instance)
  : res pyval :=
  match oi with
  | None => Err ValueError
  | Some i =>
      let loc_field_name := build_localized_fieldname (descr_field d) lang in
      match idict i !! loc_field_name with
      | Some v =>
          if truthy v then Ok v
          else if bool_decide (descr_fallback d = PNone) then
            match idict i !! descr_field d with
            | Some orig => Ok orig
            | None => Err KeyError
            end
          else Ok (descr_fallback d)
      | None => Ok PNone
      end
  end.

(** ** The save-signal handlers (translator.py) around Django's save *)

(** The language context and the [_current_lang] attribute the
    [pre_save] handler stores on the instance being saved. *)
Record save_state := mk_save_state {
  cur_language : string;
  inst_current_lang : option string
}.

Section SaveSignals.
Variable DEFAULT_LANGUAGE : string.

(** [pre_save_fix_handler]: remember [get_language()] on the instance,
    then [translation.activate(DEFAULT_LANGUAGE)]. *)
Definition pre_save_fix_handler : M save_state unit :=
  fun s => (Ok tt, mk_save_state DEFAULT_LANGUAGE (Some (cur_language s))).

(** [post_save_fix_handler]: [translation.activate(instance._current_lang)]. *)
Definition post_save_fix_handler : M save_state unit :=
  fun s => match inst_current_lang s with
           | Some l => (Ok tt, mk_save_state l (inst_current_lang s))
           | None => (Err AttributeError, s)
           end.

(** Django's [Model.save_base] (the persistence engine, outside this
    repository): send [pre_save], run the database write [write], send
    [post_save].  A raise in [write] propagates before [post_save] is
    sent. *)
Definition save_base (write : M save_state unit) : M save_state unit :=
  let! _ := pre_save_fix_handler in
  let! _ := write in
  post_save_fix_handler.
End SaveSignals.

(** ** Model classes, translation options and the translator state *)

(** A model field: [name], [__class__.__name__] and the classes of its MRO
    (the field class and its bases, by Django class name). *)
Record field := mk_field {
  field_name : string;
  field_cls_name : string;
  field_mro : list string
}.

Definition SUPPORTED_FIELDS : list string :=
  ["CharField"; "TextField"; "FileField"; "ImageField"].

(** [isinstance(field, SUPPORTED_FIELDS)]. *)
Definition is_supported (f : field) : bool :=
  existsb (fun c => bool_decide (c ∈ SUPPORTED_FIELDS)) (field_mro f).

(** The [descriptor_class] of a field: Django's [ImageField] uses
    [ImageFileDescriptor], [FileField] uses [FileDescriptor]; subclasses
    inherit them. *)
Inductive descr_class := DCNone | DCFile | DCImage.

Definition descriptor_class (f : field) : descr_class :=
  if bool_decide ("ImageField" ∈ field_mro f) then DCImage
  else if bool_decide ("FileField" ∈ field_mro f) then DCFile
  else DCNone.

(** Class attributes of a model class. *)
Inductive cls_attr :=
| AOther
| ATranslationDescriptor (d : descriptor)
| ATranslationFileDescriptor (fname : string)
| ATranslationImageDescriptor (fname : string)
| AFileDescriptor (fname : string)
| AImageFileDescriptor (fname : string).

(** A model class: [_meta] fields by name, the keys of [_meta.parents]
    (its direct concrete parents, in declaration order) and its class
    attributes.  A plain Django field is no class attribute; file fields
    install their descriptor as one. *)
Record model_cls := mk_model_cls {
  m_fields : gmap string field;
  m_parents : list string;
  m_attrs : gmap string cls_attr
}.

(** [fallback_values] of translation options: absent (or [None]), one
    value for every field, or a dict per field. *)
Inductive fallback_cfg :=
| FBAbsent
| FBValue (v : pyval)
| FBDict (m : gmap string pyval).

(** A [TranslationOptions] class.  [o_loc] / [o_rev] are
    [localized_fieldnames] / [localized_fieldnames_rev]; [None] when the
    class has no such attribute yet. *)
Record topts := mk_topts {
  o_fields : list string;
  o_fallback : fallback_cfg;
  o_loc : option (gmap string (list string));
  o_rev : option (gmap string string)
}.

(** The [**options] of [register]: attributes of the subclass built from
    them. *)
Record reg_kwargs := mk_reg_kwargs {
  kw_fields : option (list string);
  kw_fallback : option fallback_cfg
}.

Definition no_kwargs : reg_kwargs := mk_reg_kwargs None None.

(** The model classes, [translator._registry] and the signal receivers
    connected so far ([(signal, sender)]). *)
Record tstate := mk_tstate {
  t_classes : gmap string model_cls;
  t_registry : gmap string topts;
  t_connected : list (string * string)
}.

Definition set_registry (st : tstate) (r : gmap string topts) : tstate :=
  mk_tstate (t_classes st) r (t_connected st).

Definition set_classes (st : tstate) (c : gmap string model_cls) : tstate :=
  mk_tstate c (t_registry st) (t_connected st).

(** ** The translator (translator.py, fields.py) *)

Section Translator.
(** [settings.LANGUAGES] (the codes [l[0]]) and
    [MODELTRANSLATION_CUSTOM_FIELDS]. *)
Variable LANGUAGES : list string.
Variable CUSTOM_FIELDS : list string.

(** [model._meta.get_field(field_name)]. *)
Definition get_field (st : tstate) (model fname : string) : res field :=
  match t_classes st !! model with
  | Some c =>
      match m_fields c !! fname with
      | Some f => Ok f
      | None => Err FieldDoesNotExist
      end
  | None => Err FieldDoesNotExist
  end.

(** [hasattr(model, name)] on the model class. *)
Definition hasattr_model (st : tstate) (model name : string) : bool :=
  match t_classes st !! model with
  | Some c => bool_decide (is_Some (m_attrs c !! name))
  | None => false
  end.

Definition update_class (model : string) (g : model_cls -> model_cls)
  : M tstate unit :=
  modify_st (fun st =>
    match t_classes st !! model with
    | Some c => set_classes st (<[model := g c]> (t_classes st))
    | None => st
    end).

(** [setattr(model, name, value)]. *)
Definition setattr_model (model name : string) (a : cls_attr)
  : M tstate unit :=
  update_class model (fun c =>
    mk_model_cls (m_fields c) (m_parents c) (<[name := a]> (m_attrs c))).

(** [model.add_to_class(name, field)]: [contribute_to_class] adds the
    field to [_meta]; a file field also installs its descriptor. *)
Definition add_field_cls (c : model_cls) (name : string) (f : field)
  : model_cls :=
  mk_model_cls (<[name := f]> (m_fields c)) (m_parents c)
    (match descriptor_class f with
     | DCNone => m_attrs c
     | DCFile => <[name := AFileDescriptor name]> (m_attrs c)
     | DCImage => <[name := AImageFileDescriptor name]> (m_attrs c)
     end).

Definition add_to_class (model name : string) (f : field) : M tstate unit :=
  update_class model (fun c => add_field_cls c name f).

(** [TranslationFieldSpecific(translated_field=field, language=lang)]:
    a subclass of [TranslationField] and of the field's class, named
    [build_localized_fieldname(field.name, lang)]. *)
Definition translation_field (f : field) (lang : string) : field :=
  mk_field (build_localized_fieldname (field_name f) lang)
    "TranslationFieldSpecific"
    ("TranslationFieldSpecific" :: "TranslationField" :: field_mro f).

(** [create_translation_field(model, field_name, lang)]. *)
Definition create_translation_field (st : tstate) (model fname lang : string)
  : res field :=
  match get_field st model fname with
  | Ok f =>
      if is_supported f || bool_decide (field_cls_name f ∈ CUSTOM_FIELDS)
      then Ok (translation_field f lang)
      else Err ImproperlyConfigured
  | Err e => Err e
  end.

(** The loop of [get_options_for_model] over [model._meta.parents]:
    [fields.update], [localized_fieldnames.update],
    [localized_fieldnames_rev.update] for every registered parent.
    [dict.update] lets the later entry win: [m_new ∪ m_old] keeps
    [m_new]'s value on a shared key. *)
Fixpoint merge_parents (reg : gmap string topts) (ps : list string)
    (fields : gset string) (loc : gmap string (list string))
    (rev : gmap string string)
  : res (gset string * gmap string (list string) * gmap string string) :=
  match ps with
  | [] => Ok (fields, loc, rev)
  | p :: ps' =>
      match reg !! p with
      | Some o =>
          match o_loc o, o_rev o with
          | Some l, Some r =>
              merge_parents reg ps' (list_to_set (o_fields o) ∪ fields)
                (l ∪ loc) (r ∪ rev)
          | _, _ => Err AttributeError
          end
      | None => merge_parents reg ps' fields loc rev
      end
  end.

(** [Translator.get_options_for_model(model)]. *)
Definition get_options_for_model (model : string) : M tstate topts :=
  fun st =>
    match t_registry st !! model with
    | Some o => (Ok o, st)
    | None =>
        let parents :=
          match t_classes st !! model with
          | Some c => m_parents c
          | None => []
          end in
        match merge_parents (t_registry st) parents ∅ ∅ ∅ with
        | Ok (fields, loc, rev) =>
            if bool_decide (fields ≠ ∅) && bool_decide (loc ≠ ∅)
               && bool_decide (rev ≠ ∅)
            then (Ok (mk_topts (elements fields) FBAbsent (Some loc)
                        (Some rev)), st)
            else (Err NotRegistered, st)
        | Err e => (Err e, st)
        end
    end.

(** The body of the inner loop [for l in settings.LANGUAGES] of
    [add_localized_fields]. *)
Definition add_localized_field_lang (model fname : string)
    (loc : gmap string (list string)) (l : string)
  : M tstate (gmap string (list string)) :=
  let! st := get_st in
  let! tf := lift_res (create_translation_field st model fname l) in
  let localized_field_name := build_localized_fieldname fname l in
  let! st' := get_st in
  if hasattr_model st' model localized_field_name then raise ValueError
  else
    let! _ := add_to_class model localized_field_name tf in
    ret (<[fname := (default [] (loc !! fname) ++ [localized_field_name])%list]>
           loc).

(** [add_localized_fields(model)]. *)
Definition add_localized_fields (model : string)
  : M tstate (gmap string (list string)) :=
  let! opts := get_options_for_model model in
  foldM (fun loc fname =>
           foldM (add_localized_field_lang model fname) LANGUAGES
             (<[fname := []]> loc))
        (o_fields opts) ∅.

(** The dynamically built subclass of [translation_opts] carrying
    [**options]. *)
Definition apply_kwargs (o : topts) (kw : reg_kwargs) : topts :=
  mk_topts (default (o_fields o) (kw_fields kw))
    (default (o_fallback o) (kw_fallback kw)) (o_loc o) (o_rev o).

Definition kwargs_nonempty (kw : reg_kwargs) : bool :=
  bool_decide (is_Some (kw_fields kw)) || bool_decide (is_Some (kw_fallback kw)).

(** The reverse dict [rev_dict] built in [register]. *)
Definition build_rev (loc : gmap string (list string)) : gmap string string :=
  map_fold (fun orig lns acc => fold_left (fun acc ln => <[ln := orig]> acc)
                                  lns acc) ∅ loc.

(** [field_fallback_value] computed in [register]. *)
Definition field_fallback_value (fb : fallback_cfg) (fname : string) : pyval :=
  match fb with
  | FBAbsent => PNone
  | FBDict m => default PNone (m !! fname)
  | FBValue v => v
  end.

(** The descriptor [register] installs for [field_name]. *)
Definition install_descriptor (model fname : string) (fb : fallback_cfg)
  : M tstate unit :=
  let! st := get_st in
  let! f := lift_res (get_field st model fname) in
  setattr_model model fname
    (match descriptor_class f with
     | DCFile => ATranslationFileDescriptor fname
     | DCImage => ATranslationImageDescriptor fname
     | DCNone =>
         ATranslationDescriptor
           (mk_descriptor fname (field_fallback_value fb fname))
     end).

Definition set_entry (model : string) (o : topts) : M tstate unit :=
  modify_st (fun st => set_registry st (<[model := o]> (t_registry st))).

Definition connect_signals (model : string) : M tstate unit :=
  modify_st (fun st =>
    mk_tstate (t_classes st) (t_registry st)
      (t_connected st ++ [("pre_save", model); ("post_save", model)])%list).

(** The body of the loop [for model in model_or_iterable] of
    [Translator.register].  The options class is stored in the registry
    and then given [localized_fieldnames] and [localized_fieldnames_rev];
    the registry entry is updated with it.  (When one options class is
    registered for several models Python shares the class object between
    their entries; each entry here has its own copy.) *)
Definition register_model (opts : topts) (kw : reg_kwargs) (model : string)
  : M tstate unit :=
  let! st := get_st in
  if bool_decide (is_Some (t_registry st !! model)) then raise AlreadyRegistered
  else
    let! _ := connect_signals model in
    let translation_opts :=
      if kwargs_nonempty kw then apply_kwargs opts kw else opts in
    (* Store the translation class associated to the model *)
    let! _ := set_entry model translation_opts in
    let! loc := add_localized_fields model in
    let o1 := mk_topts (o_fields translation_opts)
                (o_fallback translation_opts) (Some loc)
                (o_rev translation_opts) in
    let! _ := set_entry model o1 in
    let o2 := mk_topts (o_fields o1) (o_fallback o1) (Some loc)
                (Some (build_rev loc)) in
    let! _ := set_entry model o2 in
    forM (o_fields o2)
      (fun fname => install_descriptor model fname (o_fallback o2)).

(** [Translator.register(model_or_iterable, translation_opts, **options)]. *)
Definition register (models : list string) (opts : topts) (kw : reg_kwargs)
  : M tstate unit :=
  forM models (register_model opts kw).
End Translator.

(** ** Bulk update through the multilingual manager *)

(** Rows of a table: column name to stored text.  Arithmetic on a text
    column coerces its leading decimal digits to a number, as the database
    does for the string numbers of the test suite. *)
Fixpoint str_to_Z_acc (s : string) (acc : Z) : Z :=
  match s with
  | EmptyString => acc
  | String c s' =>
      let n := Z.of_nat (Ascii.nat_of_ascii c) in
      if (48 <=? n)%Z && (n <=? 57)%Z then str_to_Z_acc s' (acc * 10 + (n - 48))
      else acc
  end.

Definition str_to_Z (s : string) : Z := str_to_Z_acc s 0.

Fixpoint Z_digits (fuel : nat) (n : Z) (acc : string) : string :=
  match fuel with
  | O => acc
  | S f =>
      let acc' := String (Ascii.ascii_of_nat (48 + Z.to_nat (n mod 10))) acc in
      if (n <? 10)%Z then acc' else Z_digits f (n / 10) acc'
  end.

(** The text a non-negative number is stored as. *)
Definition Z_to_str (n : Z) : string := Z_digits (S (Z.to_nat n)) n "".

(** The value of an update assignment: a literal, or the raw expression
    [F(col) + delta]. *)
Inductive upd_value :=
| ULit (v : string)
| UFAdd (col : string) (delta : Z).

Definition eval_upd (row : gmap string string) (v : upd_value) : string :=
  match v with
  | ULit s => s
  | UFAdd c d => Z_to_str (str_to_Z (default "" (row !! c)) + d)
  end.

(** [UPDATE ... SET col = value, ...] on every row; the right-hand sides
    read the row as it was before the update. *)
Definition sql_update (assigns : list (string * upd_value))
    (rows : list (gmap string string)) : list (gmap string string) :=
  map (fun row =>
         fold_left (fun r (cv : string * upd_value) =>
                      <[cv.1 := eval_upd row cv.2]> r) assigns row) rows.

(** Modelled from the spec: the key rewriting of the multilingual manager's
    [update] ([modeltranslation/manager.py], not among the sources).  A
    literal assignment to a translatable logical attribute is rewritten to
    the physical field of the current language; an assignment from a raw
    expression object is not rewritten, neither its key nor its operand. *)
Definition rewrite_update_key (translatable : list string) (lang key : string)
  : string :=
  if bool_decide (key ∈ translatable) then build_localized_fieldname key lang
  else key.

Definition rewrite_update (translatable : list string) (lang : string)
    (assigns : list (string * upd_value)) : list (string * upd_value) :=
  map (fun (kv : string * upd_value) =>
         match kv.2 with
         | ULit _ => (rewrite_update_key translatable lang kv.1, kv.2)
         | UFAdd _ _ => kv
         end) assigns.

(** [Model.objects.update] with the keyword arguments [assigns], under the
    active language [lang]. *)
Definition mt_update (translatable : list string) (lang : string)
    (assigns : list (string * upd_value)) (rows : list (gmap string string))
  : list (gmap string string) :=
  sql_update (rewrite_update translatable lang assigns) rows.

(** ** Concrete configurations *)

Module Sample.
(** [settings.LANGUAGES] and [DEFAULT_LANGUAGE] of the test settings. *)
Definition LANGS : list string := ["de"; "en"].
Definition DEFAULT : string := "de".

Definition char_field (name : string) : field :=
  mk_field name "CharField" ["CharField"; "Field"].
Definition integer_field (name : string) : field :=
  mk_field name "IntegerField" ["IntegerField"; "Field"].

(** A model with a [title] [CharField] and a [number] [IntegerField]. *)
Definition news_cls : model_cls :=
  mk_model_cls (<["title" := char_field "title"]>
                  (<["number" := integer_field "number"]> ∅))
    [] (<["objects" := AOther]> ∅).

Definition st_news : tstate :=
  mk_tstate (<["News" := news_cls]> ∅) ∅ [].

(** [fields = ('title', 'number')]. *)
Definition news_opts : topts :=
  mk_topts ["title"; "number"] FBAbsent None None.

(** Multi-table inheritance [A <- B <- C]: [_meta.parents] holds the
    direct concrete parent only. *)
Definition a_cls : model_cls :=
  mk_model_cls (<["titlea" := char_field "titlea"]> ∅) [] ∅.
Definition b_cls : model_cls :=
  mk_model_cls (<["titleb" := char_field "titleb"]>
                  (<["titlea" := char_field "titlea"]> ∅)) ["A"] ∅.
Definition c_cls : model_cls :=
  mk_model_cls (<["titlec" := char_field "titlec"]>
                  (<["titleb" := char_field "titleb"]>
                     (<["titlea" := char_field "titlea"]> ∅))) ["B"] ∅.

Definition st_abc0 : tstate :=
  mk_tstate (<["A" := a_cls]> (<["B" := b_cls]> (<["C" := c_cls]> ∅))) ∅ [].

Definition a_opts : topts := mk_topts ["titlea"] FBAbsent None None.

(** Only [A] registered. *)
Definition st_abc : tstate :=
  snd (register LANGS [] ["A"] a_opts no_kwargs st_abc0).

(** An instance with original slot [title = "orig"]. *)
Definition d_title : descriptor := mk_descriptor "title" PNone.
Definition inst_orig : instance :=
  mk_instance (<["title" := PStr "orig"]> ∅).
Definition inst_de_other : instance :=
  mk_instance (<["title" := PStr "orig"]> (<["title_de" := PStr "other"]>
                                             (<["title_en" := PNone]> ∅))).
(** The registry entry of [A] after its registration, its two name
    mappings, and the options synthesized for [B]. *)
Definition a_entry : topts := Eval vm_compute in
  default (mk_topts [] FBAbsent None None) (t_registry st_abc !! "A").
Definition a_loc : gmap string (list string) := Eval vm_compute in
  default ∅ (o_loc a_entry).
Definition a_rev : gmap string string := Eval vm_compute in
  default ∅ (o_rev a_entry).
Definition b_opts : topts := Eval vm_compute in
  match fst (get_options_for_model "B" st_abc) with
  | Ok o => o
  | Err _ => a_entry
  end.

(** An admin whose [trans_opts.fields] is [('title',)]: the
    [get_translation_fields] of utils.py for it, with and without
    [include_original]. *)
Definition title_translation_fields (f : string) (include_original : bool)
  : list string :=
  (if include_original then [f] else [])
  ++ (if bool_decide (f = "title") then map (build_localized_fieldname f) LANGS
      else []).
End Sample.

(** ** Auxiliary notions for the proofs *)

(** The [localized_fieldnames] entry for [k] of the registered parent
    furthest along [ps] that has one. *)
Definition loc_step (reg : gmap string topts) (k : string)
    (acc : option (list string)) (p : string) : option (list string) :=
  match reg !! p with
  | Some o =>
      match o_loc o with
      | Some l =>
          match l !! k with
          | Some v => Some v
          | None => acc
          end
      | None => acc
      end
  | None => acc
  end.

Definition last_parent_entry (reg : gmap string topts) (ps : list string)
    (k : string) : option (list string) :=
  fold_left (loc_step reg k) ps None.

(** A computation that never drops a registry entry. *)
Definition keeps_entries {A} (c : M tstate A) : Prop :=
  forall s k, is_Some (t_registry s !! k) -> is_Some (t_registry (snd (c s)) !! k).

(** The state of the model class [m] while [add_localized_fields] runs:
    compared with the class [c0] it started from, only the keys in [D]
    changed among its fields, each of them is a field now, and every class
    attribute is an old one or in [D]. *)
Definition shadow_inv (m : string) (c0 : model_cls) (D : string -> Prop)
    (st : tstate) : Prop :=
  exists c', t_classes st !! m = Some c' /\
    (forall k, ~ D k -> m_fields c' !! k = m_fields c0 !! k) /\
    (forall k, D k -> is_Some (m_fields c' !! k)) /\
    (forall k, is_Some (m_attrs c' !! k) -> is_Some (m_attrs c0 !! k) \/ D k).

(** Between two states the class [m] keeps existing and keeps every field
    it had. *)
Definition grows (m : string) (s s' : tstate) : Prop :=
  forall c, t_classes s !! m = Some c ->
  exists c', t_classes s' !! m = Some c' /\
    forall k, is_Some (m_fields c !! k) -> is_Some (m_fields c' !! k).


(** ** [Translator.unregister] (translator.py) *)

(** The body of the loop [for model in model_or_iterable] of
    [Translator.unregister]. *)
Definition unregister_model (model : string) : M tstate unit :=
  let! st := get_st in
  if bool_decide (is_Some (t_registry st !! model)) then
    modify_st (fun st => set_registry st (delete model (t_registry st)))
  else raise NotRegistered.

(** [Translator.unregister(model_or_iterable)]. *)
Definition unregister (models : list string) : M tstate unit :=
  forM models unregister_model.

(** ** [TranslationFileDescriptor.__get__] (fields.py) *)

(** What the slot of a file field holds in [instance.__dict__]: a path
    string, [None], a Django [File] that is no [FieldFile] (with its
    [name]), a [FieldFile] of the field's [attr_class] (its [name], the
    name of the [File] set as its [file] attribute if one was, whether it
    has a [field] attribute, and [_committed]), or any other object. *)
Inductive fval :=
| FVStr (s : string)
| FVNone
| FVFile (name : option string)
| FVFieldFile (name : option string) (file : option (option string))
    (has_field : bool) (committed : bool)
| FVOther.

(** [TranslationFileDescriptor.__get__(instance)] for the field named
    [fname] under the active language [lang]: [None] for the instance is
    access through the class.  [attr_class(instance, field, name)] is a
    [FieldFile] named [name], with its [field] set and committed.  The
    instance's [__dict__] is returned with the result, as the method
    stores the wrapped value there. *)
Definition fd_get (fname lang : string) (oi : option (gmap string fval))
  : res fval * option (gmap string fval) :=
  match oi with
  | None => (Err AttributeError, None)
  | Some i =>
      let field_name := build_localized_fieldname fname lang in
      match i !! field_name with
      | None => (Err KeyError, Some i)
      | Some file =>
          let i' :=
            match file with
            | FVStr s => <[field_name := FVFieldFile (Some s) None true true]> i
            | FVNone => <[field_name := FVFieldFile None None true true]> i
            | FVFile n => <[field_name := FVFieldFile n (Some n) true false]> i
            | FVFieldFile n w false c =>
                (* file.instance, file.field, file.storage are reset *)
                <[field_name := FVFieldFile n w true c]> i
            | _ => i
            end in
          match i' !! field_name with
          | Some v => (Ok v, Some i')
          | None => (Err KeyError, Some i')
          end
      end
  end.

(** ** The admin's field-list helpers (admin.py) *)

(** [s.split('_')[-1]]: the text after the last underscore of [s] (all
    of [s] when it has none). *)
Fixpoint split_last_underscore_acc (s cur : string) : string :=
  match s with
  | EmptyString => cur
  | String c s' =>
      if bool_decide (String c EmptyString = "_") then split_last_underscore_acc s' ""
      else split_last_underscore_acc s' (cur +:+ String c EmptyString)
  end.

Definition split_last_underscore (s : string) : string :=
  split_last_underscore_acc s "".

(** [list.index(x)]: the position of the first occurrence of [x]; [None]
    where Python raises [ValueError]. *)
Fixpoint py_index (x : string) (l : list string) : option nat :=
  match l with
  | [] => None
  | y :: l' =>
      if bool_decide (x = y) then Some 0%nat
      else match py_index x l' with
           | Some n => Some (S n)
           | None => None
           end
  end.

Section Admin.
(** [self.trans_opts.fields] of the admin, and [get_translation_fields]
    of [modeltranslation/utils.py] (not among the sources; its second
    argument is [include_original]). *)
Variable trans_fields : list string.
Variable get_translation_fields : string -> bool -> list string.

(** The loop [for opt in option] of [add_translation_fields]: [orig] is
    what is left of [option], [option_new] the list being rewritten.
    [option_new[index:index + 1] = translation_fields] replaces the
    element at [index]. *)
Fixpoint add_translation_fields_loop (orig option_new : list string)
  : res (list string) :=
  match orig with
  | [] => Ok option_new
  | opt :: rest =>
      if bool_decide (opt ∈ trans_fields) then
        match py_index opt option_new with
        | None => Err ValueError
        | Some index =>
            let translation_fields := get_translation_fields opt true in
            (* Prevent dupe replacements *)
            if existsb (fun f => negb (bool_decide (f ∈ option_new)))
                 translation_fields
            then add_translation_fields_loop rest
                   (take index option_new ++ translation_fields
                      ++ drop (S index) option_new)%list
            else add_translation_fields_loop rest option_new
        end
      else add_translation_fields_loop rest option_new
  end.

(** [TranslationBaseModelAdmin.add_translation_fields(option)]: an empty
    [option] is falsy and returned as it is. *)
Definition add_translation_fields (option : list string) : res (list string) :=
  match option with
  | [] => Ok option
  | _ => add_translation_fields_loop option option
  end.

(** [TranslationBaseModelAdmin._patch_prepopulated_fields]: the new value
    of [self.prepopulated_fields], or [None] where [v[0]] or
    [translation_fields[0]] raises [IndexError] (the attribute then keeps
    its old value). *)
Definition patch_prepopulated_fields (pf : gmap string (list string))
  : option (gmap string (list string)) :=
  if bool_decide (pf = ∅) then Some pf
  else
    map_fold (fun k v acc =>
                match acc with
                | None => None
                | Some acc =>
                    match v with
                    | [] => None
                    | v0 :: _ =>
                        if bool_decide (v0 ∈ trans_fields) then
                          match get_translation_fields v0 false with
                          | t0 :: _ => Some (<[k := [t0]]> acc)
                          | [] => None
                          end
                        else Some acc
                    end
                end) (Some pf) pf.

(** The loop [for field in self.list_editable] of
    [TranslationAdmin._patch_list_editable]: [orig] is what is left of
    [list_editable]; [editable_new] and [display_new] the lists being
    rewritten.  Both [index] calls raise [ValueError] on a missing
    entry. *)
Fixpoint patch_list_editable_loop (orig editable_new display_new : list string)
  : res (list string * list string) :=
  match orig with
  | [] => Ok (editable_new, display_new)
  | field :: rest =>
      if bool_decide (field ∈ trans_fields) then
        match py_index field editable_new with
        | None => Err ValueError
        | Some index =>
            match py_index field display_new with
            | None => Err ValueError
            | Some display_index =>
                let translation_fields := get_translation_fields field false in
                patch_list_editable_loop rest
                  (take index editable_new ++ translation_fields
                     ++ drop (S index) editable_new)%list
                  (take display_index display_new ++ translation_fields
                     ++ drop (S display_index) display_new)%list
            end
        end
      else patch_list_editable_loop rest editable_new display_new
  end.

(** [TranslationAdmin._patch_list_editable]: the new values of
    [self.list_editable] and [self.list_display]; an empty
    [list_editable] leaves both as they are. *)
Definition patch_list_editable (list_editable list_display : list string)
  : res (list string * list string) :=
  match list_editable with
  | [] => Ok (list_editable, list_display)
  | _ => patch_list_editable_loop list_editable list_editable list_display
  end.
End Admin.

(** [TranslationBaseModelAdmin.get_translation_field_excludes]:
    [localized_fieldnames] is [self.trans_opts.localized_fieldnames],
    walked in the dict's order. *)
Definition get_translation_field_excludes
    (localized_fieldnames : gmap string (list string))
    (exclude_languages : option (list string)) : list string :=
  let excl_languages :=
    match exclude_languages with
    | Some ((_ :: _) as ls) => ls
    | _ => []
    end in
  fold_left (fun exclude (kv : string * list string) =>
               fold_left (fun exclude tfield =>
                            let language := split_last_underscore tfield in
                            if bool_decide (language ∈ excl_languages)
                               && negb (bool_decide (tfield ∈ exclude))
                            then (exclude ++ [tfield])%list
                            else exclude) kv.2 exclude)
            (map_to_list localized_fieldnames) [].

(** * Properties *)

(** ** Shadow field names *)

Lemma build_localized_fieldname_ne (f l : string) :
  build_localized_fieldname f l <> f.
Proof.
  unfold build_localized_fieldname.
  induction f as [|a f IH]; simpl; intro H; [discriminate|].
  injection H as H. exact (IH H).
Qed.

Lemma build_localized_fieldname_inj (f l l' : string) :
  build_localized_fieldname f l = build_localized_fieldname f l' -> l = l'.
Proof.
  unfold build_localized_fieldname.
  induction f as [|a f IH]; simpl; intro H.
  - injection H as H. exact H.
  - injection H as H. exact (IH H).
Qed.

(** ** Writing and reading through the logical attribute *)

(** C1 (counterexample): with active language [en] (not the default [de]),
    writing ["new"] through [title] replaces the original slot
    [__dict__['title']] (["orig"] before): the original slot is not left
    unchanged. *)
Lemma C1_counterexample :
  "en" <> Sample.DEFAULT /\
  idict (descr_set Sample.d_title "en" Sample.inst_orig (PStr "new")) !! "title"
  <> idict Sample.inst_orig !! "title".
Proof. split; vm_compute; congruence. Qed.

(** C1 (amended): under any active language [L], writing [v] through the
    logical attribute [A] stores [v] into the shadow slot [A_L] and also
    into the original slot [__dict__[A]]; no other slot of the instance
    changes. *)
Theorem C1_set_writes_shadow_and_original (d : descriptor) (L : string)
    (i : instance) (v : pyval) :
  let i' := descr_set d L i v in
  idict i' !! build_localized_fieldname (descr_field d) L = Some v /\
  idict i' !! descr_field d = Some v /\
  (forall k, k <> descr_field d -> k <> build_localized_fieldname (descr_field d) L ->
             idict i' !! k = idict i !! k).
Proof.
  cbn. unfold setattr_inst; cbn. split; [|split].
  - rewrite lookup_insert_ne by (apply not_eq_sym, build_localized_fieldname_ne).
    apply lookup_insert_eq.
  - apply lookup_insert_eq.
  - intros k Hk1 Hk2.
    rewrite lookup_insert_ne by congruence.
    rewrite lookup_insert_ne by congruence. reflexivity.
Qed.

(** C4: reading [A] under an active language [L] other than the default,
    with the descriptor [register] installs for [A] under the options'
    [fallback_values] [fb]: a non-empty shadow slot [A_L] is returned; an
    empty one gives the fallback configured for [A] when there is one, and
    the original (default-language) slot [__dict__[A]] otherwise. *)
Theorem C4_get_non_default_language (DEFAULT_LANGUAGE L A : string)
    (fb : fallback_cfg) (i : instance) (x y : pyval)
    (HL : L <> DEFAULT_LANGUAGE)
    (Hshadow : idict i !! build_localized_fieldname A L = Some x)
    (Horig : idict i !! A = Some y) :
  let d := mk_descriptor A (field_fallback_value fb A) in
  (truthy x = true -> descr_get d L (Some i) = Ok x) /\
  (truthy x = false -> field_fallback_value fb A <> PNone ->
     descr_get d L (Some i) = Ok (field_fallback_value fb A)) /\
  (truthy x = false -> field_fallback_value fb A = PNone ->
     descr_get d L (Some i) = Ok y).
Proof.
  cbn. rewrite Hshadow.
  split; [|split]; intros Hx; rewrite Hx; [reflexivity| |].
  - intros Hfb. rewrite bool_decide_false by exact Hfb. reflexivity.
  - intros Hfb. rewrite bool_decide_true by exact Hfb. rewrite Horig.
    reflexivity.
Qed.

(** C5 (counterexample): under the default language [de], an instance whose
    shadow slot [title_de] holds ["other"] and whose original slot [title]
    holds ["orig"] reads ["other"]: the original slot is not returned
    directly. *)
Lemma C5_counterexample :
  descr_get Sample.d_title Sample.DEFAULT (Some Sample.inst_de_other)
    = Ok (PStr "other") /\
  idict Sample.inst_de_other !! "title" = Some (PStr "orig") /\
  descr_get Sample.d_title Sample.DEFAULT (Some Sample.inst_de_other)
    <> Ok (PStr "orig").
Proof. split; [|split]; vm_compute; congruence. Qed.

(** C5 (amended): under the default language [D] reading [A] follows the
    same rule as under any other language: a non-empty shadow slot [A_D]
    is returned, an empty one gives the fallback configured for [A] when
    there is one and the original slot [__dict__[A]] otherwise. *)
Theorem C5_get_default_language (D A : string) (fb : fallback_cfg)
    (i : instance) (x y : pyval)
    (Hshadow : idict i !! build_localized_fieldname A D = Some x)
    (Horig : idict i !! A = Some y) :
  let d := mk_descriptor A (field_fallback_value fb A) in
  (truthy x = true -> descr_get d D (Some i) = Ok x) /\
  (truthy x = false -> field_fallback_value fb A <> PNone ->
     descr_get d D (Some i) = Ok (field_fallback_value fb A)) /\
  (truthy x = false -> field_fallback_value fb A = PNone ->
     descr_get d D (Some i) = Ok y).
Proof.
  cbn. rewrite Hshadow.
  split; [|split]; intros Hx; rewrite Hx; [reflexivity| |].
  - intros Hfb. rewrite bool_decide_false by exact Hfb. reflexivity.
  - intros Hfb. rewrite bool_decide_true by exact Hfb. rewrite Horig.
    reflexivity.
Qed.

(** C9: when the instance has no attribute [A_L] for the active language
    [L], reading [A] returns [None]: no exception, no fallback value, no
    original slot. *)
Theorem C9_get_without_shadow_is_none (d : descriptor) (L : string)
    (i : instance)
    (Hnone : idict i !! build_localized_fieldname (descr_field d) L = None) :
  descr_get d L (Some i) = Ok PNone.
Proof. cbn. rewrite Hnone. reflexivity. Qed.

(** ** Pinning the language around a save *)

(** C2 (counterexample): starting in [en] with default language [de], a
    save whose database write raises propagates the error and leaves the
    language context pinned to [de]. *)
Lemma C2_counterexample :
  save_base Sample.DEFAULT (fun s => (Err DatabaseError, s))
    (mk_save_state "en" None)
  = (Err DatabaseError, mk_save_state "de" (Some "en")).
Proof. reflexivity. Qed.

(** C2 (amended): for a database write that leaves the language context
    and the instance alone, a save started under language [L] ends under
    [L] again when the write succeeds; when the write raises, the exception
    propagates and the language stays pinned to the default [D]. *)
Theorem C2_save_restores_only_on_success (D : string)
    (write : M save_state unit) (s : save_state)
    (Hw : forall s0, snd (write s0) = s0) :
  let s_pinned := mk_save_state D (Some (cur_language s)) in
  save_base D write s =
  match fst (write s_pinned) with
  | Ok _ => (Ok tt, mk_save_state (cur_language s) (Some (cur_language s)))
  | Err e => (Err e, s_pinned)
  end.
Proof.
  cbn. unfold save_base, bindM, pre_save_fix_handler.
  specialize (Hw (mk_save_state D (Some (cur_language s)))).
  destruct (write (mk_save_state D (Some (cur_language s)))) as [[u|e] s1].
  - cbn in Hw |- *. subst s1. reflexivity.
  - cbn in Hw |- *. subst s1. reflexivity.
Qed.

(** ** Bulk update: literal values and raw expressions *)

(** C3 (modelled from the spec): an update assigning the raw expression
    [F(c) + delta] to a key is applied as written, whatever the active
    language: neither the key nor the operand is rewritten.  A literal
    assignment to a translatable logical attribute [k] goes to the physical
    field of the active language.  With default language [de], the row
    [title = "2"], [title_de = "2"], [title_en = "1"] and the update
    [title = F('title') + 10] under [de] ends with [title = "12"] and
    [title_en = "1"]. *)
Theorem C3_update_expressions_not_rewritten :
  (forall (tr : list string) (lang k c : string) (delta : Z)
          (rows : list (gmap string string)),
     mt_update tr lang [(k, UFAdd c delta)] rows =
     map (fun row => <[k := eval_upd row (UFAdd c delta)]> row) rows) /\
  (forall (tr : list string) (lang k v : string)
          (rows : list (gmap string string)),
     k ∈ tr ->
     mt_update tr lang [(k, ULit v)] rows =
     map (fun row => <[build_localized_fieldname k lang := v]> row) rows) /\
  (let row := <["title" := "2"]> (<["title_de" := "2"]>
                (<["title_en" := "1"]> ∅)) : gmap string string in
   let rows' := mt_update ["title"; "text"; "url"; "email"] Sample.DEFAULT
                  [("title", UFAdd "title" 10)] [row] in
   rows' = [<["title" := "12"]> row] /\
   (rows' !! 0%nat) ≫= (fun r => r !! "title") = Some "12" /\
   (rows' !! 0%nat) ≫= (fun r => r !! "title_en") = Some "1").
Proof.
  split; [|split].
  - intros. reflexivity.
  - intros tr lang k v rows Hk. unfold mt_update, rewrite_update, rewrite_update_key.
    cbn. rewrite bool_decide_true by exact Hk. reflexivity.
  - vm_compute. split; [reflexivity|split; reflexivity].
Qed.

(** ** Options of unregistered models: the direct parents *)

Lemma merge_parents_spec (reg : gmap string topts) (ps : list string) :
  forall f l r f' l' r',
  merge_parents reg ps f l r = Ok (f', l', r') ->
  (forall a, a ∈ f' <-> a ∈ f \/ exists p op, p ∈ ps /\ reg !! p = Some op /\ a ∈ o_fields op) /\
  (forall k, l' !! k = fold_left (loc_step reg k) ps (l !! k)) /\
  (forall k, is_Some (r !! k) -> is_Some (r' !! k)) /\
  (forall p op ro k, p ∈ ps -> reg !! p = Some op -> o_rev op = Some ro ->
                     is_Some (ro !! k) -> is_Some (r' !! k)).
Proof.
  induction ps as [|p ps IH]; intros f l r f' l' r' H; cbn in H.
  - injection H as <- <- <-. split; [|split; [|split]].
    + intros a. split; [by left|]. intros [Ha|(p & op & Hp & _)]; [done|].
      by apply elem_of_nil in Hp.
    + intros k. reflexivity.
    + done.
    + intros p op ro k Hp. by apply elem_of_nil in Hp.
  - destruct (reg !! p) as [o|] eqn:Hp.
    + destruct (o_loc o) as [lo|] eqn:Hlo; [|discriminate].
      destruct (o_rev o) as [ro|] eqn:Hro; [|discriminate].
      destruct (IH _ _ _ _ _ _ H) as (Hf & Hl & Hr & Hr').
      split; [|split; [|split]].
      * intros a. rewrite Hf, elem_of_union, elem_of_list_to_set.
        split.
        -- intros [[Ha|Ha]|(q & oq & Hq & Hq' & Ha)].
           ++ right. exists p, o. split; [apply elem_of_cons; by left|done].
           ++ by left.
           ++ right. exists q, oq. split; [apply elem_of_cons; by right|done].
        -- intros [Ha|(q & oq & Hq & Hq' & Ha)]; [left; by right|].
           apply elem_of_cons in Hq as [->|Hq].
           ++ rewrite Hp in Hq'. injection Hq' as <-. left; by left.
           ++ right. by exists q, oq.
      * intros k. rewrite Hl. cbn. f_equal.
        unfold loc_step. rewrite Hp. cbn. rewrite Hlo. cbn.
        rewrite lookup_union. destruct (lo !! k), (l !! k); reflexivity.
      * intros k Hk. apply Hr. rewrite lookup_union.
        destruct (ro !! k), (r !! k); try done.
      * intros q oq rq k Hq Hq' Hrq Hk. apply elem_of_cons in Hq as [->|Hq].
        -- rewrite Hp in Hq'. injection Hq' as <-. rewrite Hro in Hrq.
           injection Hrq as <-. apply Hr. rewrite lookup_union.
           destruct (ro !! k), (r !! k); try done.
        -- by apply (Hr' q oq rq k).
    + destruct (IH _ _ _ _ _ _ H) as (Hf & Hl & Hr & Hr').
      split; [|split; [|split]].
      * intros a. rewrite Hf. split.
        -- intros [Ha|(q & oq & Hq & Hq' & Ha)]; [by left|].
           right. exists q, oq. split; [apply elem_of_cons; by right|done].
        -- intros [Ha|(q & oq & Hq & Hq' & Ha)]; [by left|].
           apply elem_of_cons in Hq as [->|Hq]; [congruence|].
           right. by exists q, oq.
      * intros k. rewrite Hl. simpl fold_left. f_equal.
        unfold loc_step. rewrite Hp. reflexivity.
      * exact Hr.
      * intros q oq rq k Hq Hq' Hrq Hk. apply elem_of_cons in Hq as [->|Hq].
        -- congruence.
        -- by apply (Hr' q oq rq k).
Qed.

Lemma merge_parents_ok (reg : gmap string topts) (ps : list string) :
  (forall p op, p ∈ ps -> reg !! p = Some op ->
                is_Some (o_loc op) /\ is_Some (o_rev op)) ->
  forall f l r, exists res, merge_parents reg ps f l r = Ok res.
Proof.
  induction ps as [|p ps IH]; intros Hset f l r; cbn; [by eexists|].
  assert (Hset' : forall q oq, q ∈ ps -> reg !! q = Some oq ->
                               is_Some (o_loc oq) /\ is_Some (o_rev oq)).
  { intros q oq Hq. apply Hset. apply elem_of_cons; by right. }
  destruct (reg !! p) as [o|] eqn:Hp; [|by apply IH].
  destruct (Hset p o ltac:(apply elem_of_cons; by left) Hp)
    as [[lo Hlo] [ro Hro]].
  rewrite Hlo, Hro. by apply IH.
Qed.

Lemma fold_loc_step_keeps (reg : gmap string topts) (k : string) :
  forall ps acc, is_Some acc -> is_Some (fold_left (loc_step reg k) ps acc).
Proof.
  induction ps as [|p ps IH]; intros acc Hacc; cbn; [done|].
  apply IH. unfold loc_step.
  destruct (reg !! p) as [o|]; [|done].
  destruct (o_loc o) as [l|]; [|done].
  destruct (l !! k); done.
Qed.

Lemma fold_loc_step_hit (reg : gmap string topts) (k : string) :
  forall ps acc p o lo v, p ∈ ps -> reg !! p = Some o -> o_loc o = Some lo ->
  lo !! k = Some v -> is_Some (fold_left (loc_step reg k) ps acc).
Proof.
  induction ps as [|q ps IH]; intros acc p o lo v Hp Ho Hlo Hv.
  - by apply elem_of_nil in Hp.
  - cbn. apply elem_of_cons in Hp as [->|Hp].
    + apply fold_loc_step_keeps. unfold loc_step. by rewrite Ho, Hlo, Hv.
    + by apply (IH _ p o lo v).
Qed.

(** C6 (counterexample): [C] inherits from [B], which inherits from the
    registered [A].  [get_options_for_model(C)] raises [NotRegistered]:
    the grandparent [A] is not searched. *)
Lemma abc_grandparent_not_searched :
  (exists o, t_registry Sample.st_abc !! "A" = Some o /\ "titlea" ∈ o_fields o) /\
  t_registry Sample.st_abc !! "C" = None /\
  option_map m_parents (t_classes Sample.st_abc !! "C") = Some ["B"] /\
  option_map m_parents (t_classes Sample.st_abc !! "B") = Some ["A"] /\
  get_options_for_model "C" Sample.st_abc = (Err NotRegistered, Sample.st_abc).
Proof.
  split; [|split; [|split; [|split]]]; try (vm_compute; reflexivity).
  eexists. split; [vm_compute; reflexivity|]. cbn. apply elem_of_cons; by left.
Qed.

Lemma C6_counterexample :
  (exists o, t_registry Sample.st_abc !! "A" = Some o /\ "titlea" ∈ o_fields o) /\
  get_options_for_model "C" Sample.st_abc = (Err NotRegistered, Sample.st_abc).
Proof.
  destruct abc_grandparent_not_searched as (H1 & _ & _ & _ & H2). by split.
Qed.

(** C6 (amended): for a model [m] that is not registered,
    [get_options_for_model] looks at the registered models among its
    direct parents ([_meta.parents]) only; when it returns options, the
    registry is unchanged, the fields are the union of those parents'
    fields, and the entry of [localized_fieldnames] for a key is that of
    the last parent along [_meta.parents] that has one ([dict.update]). *)
Theorem C6_get_options_direct_parents_last_wins (st st' : tstate)
    (m : string) (c : model_cls) (o : topts)
    (Hunreg : t_registry st !! m = None)
    (Hcls : t_classes st !! m = Some c)
    (Hget : get_options_for_model m st = (Ok o, st')) :
  st' = st /\
  (forall a, a ∈ o_fields o <->
             exists p op, p ∈ m_parents c /\ t_registry st !! p = Some op /\
                          a ∈ o_fields op) /\
  exists l, o_loc o = Some l /\
    forall k, l !! k = last_parent_entry (t_registry st) (m_parents c) k.
Proof.
  unfold get_options_for_model in Hget. rewrite Hunreg, Hcls in Hget.
  destruct (merge_parents (t_registry st) (m_parents c) ∅ ∅ ∅)
    as [[[f l] r]|e] eqn:Hm; [|discriminate].
  destruct (bool_decide (f ≠ ∅) && bool_decide (l ≠ ∅) && bool_decide (r ≠ ∅));
    [|discriminate].
  injection Hget as <- <-.
  destruct (merge_parents_spec _ _ _ _ _ _ _ _ Hm) as (Hf & Hl & _ & _).
  split; [done|split].
  - intros a. cbn. rewrite elem_of_elements, Hf. split.
    + intros [Ha|Ha]; [set_solver|done].
    + intros Ha. by right.
  - exists l. split; [done|]. intros k. rewrite Hl, lookup_empty. reflexivity.
Qed.

(** C7 (counterexample): [C]'s grandparent [A] is registered with [titlea]
    translatable, yet querying the options of [C] raises [NotRegistered]. *)
Lemma C7_counterexample :
  t_registry Sample.st_abc !! "C" = None /\
  (exists o, t_registry Sample.st_abc !! "A" = Some o /\ "titlea" ∈ o_fields o) /\
  fst (get_options_for_model "C" Sample.st_abc) = Err NotRegistered.
Proof.
  destruct abc_grandparent_not_searched as (H1 & H2 & _ & _ & H3).
  split; [exact H2|split; [exact H1|]]. by rewrite H3.
Qed.

(** C7 (amended): a model [S] that is not registered, with a direct parent
    [P] (in [S._meta.parents]) registered with [A] translatable and with
    non-empty [localized_fieldnames] and [localized_fieldnames_rev], reports
    [A] as translatable, provided the registered direct parents of [S]
    carry both mappings; the query leaves the state, the registry included,
    unchanged. *)
Theorem C7_subtype_inherits_from_direct_parent (st : tstate)
    (S P A : string) (c : model_cls) (oP : topts)
    (lP : gmap string (list string)) (rP : gmap string string)
    (Hunreg : t_registry st !! S = None)
    (Hcls : t_classes st !! S = Some c)
    (Hpar : P ∈ m_parents c)
    (HP : t_registry st !! P = Some oP)
    (HA : A ∈ o_fields oP)
    (Hloc : o_loc oP = Some lP) (Hlne : lP ≠ ∅)
    (Hrev : o_rev oP = Some rP) (Hrne : rP ≠ ∅)
    (Hset : forall p op, p ∈ m_parents c -> t_registry st !! p = Some op ->
                         is_Some (o_loc op) /\ is_Some (o_rev op)) :
  exists o, get_options_for_model S st = (Ok o, st) /\ A ∈ o_fields o.
Proof.
  destruct (merge_parents_ok _ _ Hset ∅ ∅ ∅) as [[[f l] r] Hm].
  destruct (merge_parents_spec _ _ _ _ _ _ _ _ Hm) as (Hf & Hl & _ & Hr).
  assert (HAf : A ∈ f) by (apply Hf; right; exists P, oP; done).
  destruct (map_choose lP Hlne) as (k & v & Hkv).
  destruct (map_choose rP Hrne) as (k' & v' & Hkv').
  assert (Hl' : l ≠ ∅).
  { intros ->. specialize (Hl k). rewrite !lookup_empty in Hl.
    destruct (fold_loc_step_hit (t_registry st) k (m_parents c) None P oP lP v
                Hpar HP Hloc Hkv) as [w Hw].
    congruence. }
  assert (Hr' : r ≠ ∅).
  { intros ->. destruct (Hr P oP rP k' Hpar HP Hrev ltac:(by eexists)) as [w Hw].
    by rewrite lookup_empty in Hw. }
  unfold get_options_for_model. rewrite Hunreg, Hcls, Hm.
  rewrite bool_decide_true by set_solver.
  rewrite bool_decide_true by exact Hl'.
  rewrite bool_decide_true by exact Hr'.
  eexists. split; [reflexivity|]. cbn. by apply elem_of_elements.
Qed.

(** ** Registration is not atomic *)

Section KeepsEntries.
Lemma keeps_bind {A B} (c : M tstate A) (k : A -> M tstate B) :
  keeps_entries c -> (forall a, keeps_entries (k a)) ->
  keeps_entries (bindM c k).
Proof.
  intros Hc Hk s x Hx. unfold bindM.
  specialize (Hc s x Hx). destruct (c s) as [[a|e] s']; cbn in *; [|done].
  by apply Hk.
Qed.

Lemma keeps_ret {A} (a : A) : keeps_entries (ret a).
Proof. intros s x Hx. exact Hx. Qed.

Lemma keeps_raise {A} (e : exc) : keeps_entries (A := A) (raise e).
Proof. intros s x Hx. exact Hx. Qed.

Lemma keeps_get : keeps_entries get_st.
Proof. intros s x Hx. exact Hx. Qed.

Lemma keeps_lift {A} (r : res A) : keeps_entries (lift_res r).
Proof. intros s x Hx. unfold lift_res. by destruct r. Qed.

Lemma keeps_update_class (m : string) (g : model_cls -> model_cls) :
  keeps_entries (update_class m g).
Proof.
  intros s x Hx. unfold update_class, modify_st. cbn.
  by destruct (t_classes s !! m).
Qed.

Lemma keeps_set_entry (m : string) (o : topts) :
  keeps_entries (set_entry m o).
Proof.
  intros s x Hx. unfold set_entry, modify_st. cbn.
  destruct (decide (x = m)) as [->|Hne].
  - rewrite lookup_insert_eq. by eexists.
  - by rewrite lookup_insert_ne by congruence.
Qed.

Lemma keeps_foldM {A B} (f : B -> A -> M tstate B) :
  (forall acc x, keeps_entries (f acc x)) ->
  forall xs acc, keeps_entries (foldM f xs acc).
Proof.
  intros Hf xs. induction xs as [|x xs IH]; intros acc; cbn.
  - apply keeps_ret.
  - apply keeps_bind; [apply Hf|]. intros a. apply IH.
Qed.

Lemma keeps_forM {A} (body : A -> M tstate unit) :
  (forall x, keeps_entries (body x)) ->
  forall xs, keeps_entries (forM xs body).
Proof.
  intros Hb xs. induction xs as [|x xs IH]; cbn.
  - apply keeps_ret.
  - apply keeps_bind; [apply Hb|]. intros _. apply IH.
Qed.

Lemma keeps_get_options (m : string) :
  keeps_entries (get_options_for_model m).
Proof.
  intros s x Hx. unfold get_options_for_model.
  destruct (t_registry s !! m); [exact Hx|].
  destruct (merge_parents _ _ _ _ _) as [[[f l] r]|e]; [|exact Hx].
  by destruct (_ && _ && _).
Qed.

Lemma keeps_add_localized_fields (LANGS CUSTOM : list string) (m : string) :
  keeps_entries (add_localized_fields LANGS CUSTOM m).
Proof.
  unfold add_localized_fields. apply keeps_bind; [apply keeps_get_options|].
  intros opts. apply keeps_foldM. intros loc fname.
  apply keeps_foldM. intros loc' l. unfold add_localized_field_lang.
  apply keeps_bind; [apply keeps_get|]. intros st.
  apply keeps_bind; [apply keeps_lift|]. intros tf.
  apply keeps_bind; [apply keeps_get|]. intros st'.
  destruct (hasattr_model _ _ _); [apply keeps_raise|].
  apply keeps_bind; [apply keeps_update_class|]. intros _. apply keeps_ret.
Qed.

Lemma keeps_install_descriptor (m fname : string) (fb : fallback_cfg) :
  keeps_entries (install_descriptor m fname fb).
Proof.
  unfold install_descriptor.
  apply keeps_bind; [apply keeps_get|]. intros st.
  apply keeps_bind; [apply keeps_lift|]. intros f.
  apply keeps_update_class.
Qed.
End KeepsEntries.

(** Whatever [register_model] ends with, a model that was not registered
    has a registry entry afterwards. *)
Lemma register_model_leaves_entry (LANGS CUSTOM : list string) (opts : topts)
    (kw : reg_kwargs) (m : string) (st : tstate) :
  t_registry st !! m = None ->
  is_Some (t_registry (snd (register_model LANGS CUSTOM opts kw m st)) !! m).
Proof.
  intros Hunreg. unfold register_model, bindM at 1, get_st at 1.
  rewrite bool_decide_false by (rewrite Hunreg; by intros []).
  unfold bindM at 1, connect_signals, modify_st at 1.
  unfold bindM at 1, set_entry at 1, modify_st at 1.
  set (st2 := set_registry _ _).
  assert (H2 : is_Some (t_registry st2 !! m))
    by (cbn; rewrite lookup_insert_eq; by eexists).
  revert H2. generalize st2. intros s Hs.
  refine (keeps_bind _ _ _ _ s m Hs).
  - apply keeps_add_localized_fields.
  - intros loc. apply keeps_bind; [apply keeps_set_entry|]. intros _.
    apply keeps_bind; [apply keeps_set_entry|]. intros _.
    apply keeps_forM. intros fname. apply keeps_install_descriptor.
Qed.

(** C10: [register] stores the model in the registry before it synthesizes
    any shadow field; when registering a model that was not registered
    raises, the model stays in the registry: registering it again raises
    [AlreadyRegistered], and [get_options_for_model] returns the stored
    options instead of raising [NotRegistered]. *)
Theorem C10_register_not_atomic (LANGS CUSTOM : list string) (st : tstate)
    (m : string) (opts : topts) (kw : reg_kwargs) (e : exc)
    (Hunreg : t_registry st !! m = None)
    (Hfail : fst (register LANGS CUSTOM [m] opts kw st) = Err e) :
  let st' := snd (register LANGS CUSTOM [m] opts kw st) in
  (exists o, t_registry st' !! m = Some o /\
             get_options_for_model m st' = (Ok o, st')) /\
  (forall opts' kw',
     fst (register LANGS CUSTOM [m] opts' kw' st') = Err AlreadyRegistered).
Proof.
  assert (Hst : snd (register LANGS CUSTOM [m] opts kw st) =
                snd (register_model LANGS CUSTOM opts kw m st)).
  { change (register LANGS CUSTOM [m] opts kw st) with
      (bindM (register_model LANGS CUSTOM opts kw m) (fun _ => ret tt) st).
    unfold bindM.
    by destruct (register_model LANGS CUSTOM opts kw m st) as [[[]|e'] s']. }
  cbn zeta. rewrite Hst.
  destruct (register_model_leaves_entry LANGS CUSTOM opts kw m st Hunreg)
    as [o Ho].
  generalize dependent (snd (register_model LANGS CUSTOM opts kw m st)).
  intros st' _ Ho.
  split.
  - exists o. split; [exact Ho|]. unfold get_options_for_model. by rewrite Ho.
  - intros opts' kw'.
    change (register LANGS CUSTOM [m] opts' kw' st') with
      (bindM (register_model LANGS CUSTOM opts' kw' m) (fun _ => ret tt) st').
    cbv [bindM register_model get_st].
    rewrite bool_decide_true by (rewrite Ho; by eexists). reflexivity.
Qed.

(** ** An unsupported field kind: where registration stops *)

Section ShadowLoop.
Variables LANGS CUSTOM : list string.
Variable m : string.
Variable c0 : model_cls.

Lemma shadow_inv_iff (D D' : string -> Prop) (st : tstate) :
  (forall k, D k <-> D' k) -> shadow_inv m c0 D st -> shadow_inv m c0 D' st.
Proof.
  intros HD (c' & Hc & Hsame & Hin & Hattr).
  exists c'. split; [exact Hc|split; [|split]].
  - intros k Hk. apply Hsame. by rewrite HD.
  - intros k Hk. apply Hin. by rewrite HD.
  - intros k Hk. rewrite <- HD. by apply Hattr.
Qed.

Definition good_field (fld : field) : bool :=
  is_supported fld || bool_decide (field_cls_name fld ∈ CUSTOM).

(** One iteration of the language loop for a field of a supported kind
    whose shadow name is free. *)
Lemma add_localized_field_lang_ok (D : string -> Prop) (st : tstate)
    (f : string) (fld : field) (l : string) (loc : gmap string (list string)) :
  shadow_inv m c0 D st -> m_fields c0 !! f = Some fld -> ~ D f ->
  good_field fld = true ->
  ~ D (build_localized_fieldname f l) ->
  m_attrs c0 !! build_localized_fieldname f l = None ->
  exists loc' st',
    add_localized_field_lang CUSTOM m f loc l st = (Ok loc', st') /\
    shadow_inv m c0 (fun k => k = build_localized_fieldname f l \/ D k) st'.
Proof.
  intros (c' & Hc & Hsame & Hin & Hattr) Hf HDf Hgood HDn Hfree.
  set (n := build_localized_fieldname f l) in *.
  assert (Hget : get_field st m f = Ok fld).
  { unfold get_field. rewrite Hc, Hsame by exact HDf. by rewrite Hf. }
  assert (Hnoattr : m_attrs c' !! n = None).
  { destruct (m_attrs c' !! n) eqn:E; [|done].
    destruct (Hattr n ltac:(by rewrite E)) as [[x Hx]|Hx]; congruence. }
  unfold add_localized_field_lang, bindM, get_st, lift_res,
    create_translation_field.
  rewrite Hget. unfold good_field in Hgood. rewrite Hgood.
  unfold hasattr_model. fold n. rewrite Hc, Hnoattr.
  rewrite bool_decide_false by (by intros []).
  unfold add_to_class, update_class, modify_st. rewrite Hc.
  eexists _, _. split; [reflexivity|].
  exists (add_field_cls c' n (translation_field fld l)). cbn.
  split; [apply lookup_insert_eq|split; [|split]].
  - intros k Hk. rewrite lookup_insert_ne by (intros ->; apply Hk; by left).
    apply Hsame. intros HD. apply Hk. by right.
  - intros k [->|Hk]; [rewrite lookup_insert_eq; by eexists|].
    destruct (decide (k = n)) as [->|Hne];
      [rewrite lookup_insert_eq; by eexists|].
    rewrite lookup_insert_ne by congruence. by apply Hin.
  - intros k Hk.
    destruct (decide (k = n)) as [->|Hne]; [right; by left|].
    destruct (descriptor_class (translation_field fld l));
      try (rewrite lookup_insert_ne in Hk by congruence);
      (destruct (Hattr k Hk) as [H|H]; [by left|right; by right]).
Qed.

(** The language loop for one field. *)
Lemma lang_loop_ok (f : string) (fld : field) :
  m_fields c0 !! f = Some fld -> good_field fld = true ->
  forall (langs : list string) (D : string -> Prop) (st : tstate)
         (loc : gmap string (list string)),
  shadow_inv m c0 D st -> ~ D f -> NoDup langs ->
  (forall l, l ∈ langs -> ~ D (build_localized_fieldname f l) /\
                          m_attrs c0 !! build_localized_fieldname f l = None) ->
  exists loc' st',
    foldM (add_localized_field_lang CUSTOM m f) langs loc st = (Ok loc', st') /\
    shadow_inv m c0
      (fun k => (exists l, l ∈ langs /\ k = build_localized_fieldname f l) \/ D k)
      st'.
Proof.
  intros Hf Hgood langs. induction langs as [|l langs IH];
    intros D st loc Hinv HDf Hnd Hfresh.
  - exists loc, st. split; [reflexivity|].
    apply (shadow_inv_iff D); [|exact Hinv]. intros k. split; [by right|].
    intros [(l & Hl & _)|Hk]; [by apply elem_of_nil in Hl|exact Hk].
  - apply NoDup_cons in Hnd as [Hl Hnd].
    destruct (Hfresh l ltac:(apply elem_of_cons; by left)) as [HDn Hfree].
    destruct (add_localized_field_lang_ok D st f fld l loc Hinv Hf HDf Hgood
                HDn Hfree) as (loc1 & st1 & Hstep & Hinv1).
    destruct (IH _ st1 loc1 Hinv1) as (loc2 & st2 & Hrest & Hinv2).
    + intros [H|H]; [by apply (build_localized_fieldname_ne f l)|done].
    + exact Hnd.
    + intros l' Hl'. split.
      * intros [H|H].
        -- apply build_localized_fieldname_inj in H. subst l'. done.
        -- apply (Hfresh l'); [apply elem_of_cons; by right|exact H].
      * apply (Hfresh l'). apply elem_of_cons; by right.
    + exists loc2, st2. split.
      * cbn. unfold bindM. rewrite Hstep. exact Hrest.
      * eapply shadow_inv_iff; [|exact Hinv2]. intros k. split.
        -- intros [(l' & Hl' & ->)|[->|Hk]].
           ++ left. exists l'. split; [apply elem_of_cons; by right|done].
           ++ left. exists l. split; [apply elem_of_cons; by left|done].
           ++ by right.
        -- intros [(l' & Hl' & ->)|Hk]; [|right; by right].
           apply elem_of_cons in Hl' as [->|Hl'].
           ++ right. by left.
           ++ left. by exists l'.
Qed.

(** The loop over the earlier fields. *)
Lemma field_loop_ok (Hnd_l : NoDup LANGS) :
  forall (pre : list string) (D : string -> Prop) (st : tstate)
         (loc : gmap string (list string)),
  shadow_inv m c0 D st -> NoDup pre ->
  (forall f, f ∈ pre -> exists fld, m_fields c0 !! f = Some fld /\
                                    good_field fld = true) ->
  (forall f, f ∈ pre -> ~ D f) ->
  (forall f l, f ∈ pre -> l ∈ LANGS ->
     ~ D (build_localized_fieldname f l) /\
     m_attrs c0 !! build_localized_fieldname f l = None) ->
  (forall f g l l', f ∈ pre -> g ∈ pre -> l ∈ LANGS -> l' ∈ LANGS ->
     build_localized_fieldname f l = build_localized_fieldname g l' -> f = g) ->
  (forall g f l, g ∈ pre -> f ∈ pre -> l ∈ LANGS ->
     g <> build_localized_fieldname f l) ->
  exists loc' st',
    foldM (fun loc fname =>
             foldM (add_localized_field_lang CUSTOM m fname) LANGS
               (<[fname := []]> loc)) pre loc st = (Ok loc', st') /\
    shadow_inv m c0
      (fun k => (exists f l, f ∈ pre /\ l ∈ LANGS /\
                             k = build_localized_fieldname f l) \/ D k) st'.
Proof.
  intros pre. induction pre as [|f pre IH];
    intros D st loc Hinv Hnd Hgood HD Hfresh Hinj Hns.
  - exists loc, st. split; [reflexivity|].
    apply (shadow_inv_iff D); [|exact Hinv]. intros k. split; [by right|].
    intros [(f & l & Hf & _)|Hk]; [by apply elem_of_nil in Hf|exact Hk].
  - apply NoDup_cons in Hnd as [Hfpre Hnd].
    assert (Hin : f ∈ f :: pre) by (apply elem_of_cons; by left).
    destruct (Hgood f Hin) as (fld & Hfld & Hg).
    destruct (lang_loop_ok f fld Hfld Hg LANGS D st (<[f := []]> loc) Hinv
                (HD f Hin) Hnd_l (fun l Hl => Hfresh f l Hin Hl))
      as (loc1 & st1 & Hstep & Hinv1).
    destruct (IH _ st1 loc1 Hinv1 Hnd) as (loc2 & st2 & Hrest & Hinv2).
    + intros g Hg'. apply Hgood. apply elem_of_cons; by right.
    + intros g Hg' [(l & Hl & ->)|Hk].
      * apply (Hns (build_localized_fieldname f l) f l); [|exact Hin|exact Hl|done].
        apply elem_of_cons; by right.
      * apply (HD g); [apply elem_of_cons; by right|exact Hk].
    + intros g l Hg' Hl. split.
      * intros [(l' & Hl' & Heq)|Hk].
        -- assert (g = f) as ->.
           { apply (Hinj g f l l'); try done. apply elem_of_cons; by right. }
           done.
        -- apply (Hfresh g l); [apply elem_of_cons; by right|exact Hl|exact Hk].
      * apply (Hfresh g l); [apply elem_of_cons; by right|exact Hl].
    + intros g h l l' Hg' Hh Hl Hl'. apply Hinj; try done;
        apply elem_of_cons; by right.
    + intros g h l Hg' Hh Hl. apply Hns; try done; apply elem_of_cons; by right.
    + exists loc2, st2. split.
      * cbn. unfold bindM. rewrite Hstep. exact Hrest.
      * eapply shadow_inv_iff; [|exact Hinv2]. intros k. split.
        -- intros [(g & l & Hg' & Hl & ->)|[(l & Hl & ->)|Hk]].
           ++ left. exists g, l. split; [apply elem_of_cons; by right|done].
           ++ left. exists f, l. done.
           ++ by right.
        -- intros [(g & l & Hg' & Hl & ->)|Hk]; [|right; by right].
           apply elem_of_cons in Hg' as [->|Hg'].
           ++ right. left. by exists l.
           ++ left. by exists g, l.
Qed.
End ShadowLoop.

Lemma foldM_app {S A B} (f : B -> A -> M S B) (xs ys : list A) :
  forall acc s,
  foldM f (xs ++ ys) acc s =
  match foldM f xs acc s with
  | (Ok a, s') => foldM f ys a s'
  | (Err e, s') => (Err e, s')
  end.
Proof.
  induction xs as [|x xs IH]; intros acc s; cbn; [reflexivity|].
  unfold bindM. destruct (f acc x s) as [[a|e] s']; [apply IH|reflexivity].
Qed.

Lemma add_localized_field_lang_unsupported (CUSTOM : list string)
    (m : string) (c0 : model_cls) (D : string -> Prop) (st : tstate)
    (a : string) (fa : field) (l : string) (loc : gmap string (list string)) :
  shadow_inv m c0 D st -> m_fields c0 !! a = Some fa -> ~ D a ->
  good_field CUSTOM fa = false ->
  add_localized_field_lang CUSTOM m a loc l st = (Err ImproperlyConfigured, st).
Proof.
  intros (c' & Hc & Hsame & _ & _) Ha HDa Hbad.
  unfold add_localized_field_lang, bindM, get_st, lift_res,
    create_translation_field, get_field.
  rewrite Hc, Hsame by exact HDa. rewrite Ha.
  unfold good_field in Hbad. by rewrite Hbad.
Qed.

(** C8 (amended): registering a model whose [fields] are [pre ++ a ::
    post], where [a] is of a kind neither supported nor whitelisted in
    [CUSTOM_FIELDS] and the attributes of [pre] are of supported kinds
    whose shadow fields can be added without a name collision, raises
    [ImproperlyConfigured] (the UnsupportedFieldKind error) with at least
    one configured language.  No shadow field of [a] is created, but the
    shadow fields [f_l] of the attributes [f] listed before [a] have been
    added to the model class and stay; nothing else of the class's fields
    changed. *)
Theorem C8_unsupported_kind_raises_after_earlier_shadows
    (LANGS CUSTOM : list string) (st : tstate) (m : string) (c : model_cls)
    (opts : topts) (pre post : list string) (a : string) (fa : field)
    (Hunreg : t_registry st !! m = None)
    (Hcls : t_classes st !! m = Some c)
    (Hfields : o_fields opts = (pre ++ a :: post)%list)
    (Hlangs : LANGS <> [])
    (Ha : m_fields c !! a = Some fa)
    (Hkind : is_supported fa = false)
    (Hcustom : field_cls_name fa ∉ CUSTOM)
    (Hpre : forall f, f ∈ pre -> exists fld, m_fields c !! f = Some fld /\
              (is_supported fld || bool_decide (field_cls_name fld ∈ CUSTOM)) = true)
    (Hnd_pre : NoDup pre) (Hnd_l : NoDup LANGS)
    (Hinj : forall f g l l', f ∈ pre -> g ∈ pre -> l ∈ LANGS -> l' ∈ LANGS ->
              build_localized_fieldname f l = build_localized_fieldname g l' -> f = g)
    (Hns : forall g f l, g ∈ a :: pre -> f ∈ pre -> l ∈ LANGS ->
             g <> build_localized_fieldname f l)
    (Hfree : forall f l, f ∈ pre -> l ∈ LANGS ->
               m_attrs c !! build_localized_fieldname f l = None) :
  let r := register LANGS CUSTOM [m] opts no_kwargs st in
  fst r = Err ImproperlyConfigured /\
  exists c', t_classes (snd r) !! m = Some c' /\
    (forall f l, f ∈ pre -> l ∈ LANGS ->
                 is_Some (m_fields c' !! build_localized_fieldname f l)) /\
    (forall k, (forall f l, f ∈ pre -> l ∈ LANGS ->
                            k <> build_localized_fieldname f l) ->
               m_fields c' !! k = m_fields c !! k).
Proof.
  destruct LANGS as [|l0 ls] eqn:EL; [done|]. rewrite <- EL in *.
  (* the state once the options are stored *)
  set (st2 := set_registry
                (mk_tstate (t_classes st) (t_registry st)
                   (t_connected st ++ [("pre_save", m); ("post_save", m)])%list)
                (<[m := opts]> (t_registry st))).
  assert (Hinv2 : shadow_inv m c (fun _ => False) st2).
  { exists c. split; [exact Hcls|]. split; [done|]. split; [done|].
    intros k Hk. by left. }
  destruct (field_loop_ok LANGS CUSTOM m c Hnd_l pre (fun _ => False) st2 ∅
              Hinv2 Hnd_pre Hpre) as (loc1 & st3 & Hloop & Hinv3).
  { intros f _ []. }
  { intros f l Hf Hl. split; [intros []|]. by apply Hfree. }
  { exact Hinj. }
  { intros g f l Hg Hf Hl. apply Hns; [apply elem_of_cons; by right|done|done]. }
  { assert (HDa : ~ ((exists f l, f ∈ pre /\ l ∈ LANGS /\
                                 a = build_localized_fieldname f l) \/ False)).
    { intros [(f & l & Hf & Hl & Heq)|[]].
      exact (Hns a f l ltac:(apply elem_of_cons; by left) Hf Hl Heq). }
    assert (Hbad : good_field CUSTOM fa = false).
    { unfold good_field. rewrite Hkind. cbn. by apply bool_decide_false. }
    assert (Hadd : add_localized_fields LANGS CUSTOM m st2 =
                   (Err ImproperlyConfigured, st3)).
    { unfold add_localized_fields, bindM.
      assert (Hopt : get_options_for_model m st2 = (Ok opts, st2)).
      { unfold get_options_for_model. cbn. by rewrite lookup_insert_eq. }
      rewrite Hopt, Hfields, foldM_app, Hloop. cbn [foldM]. unfold bindM at 1.
      rewrite EL. cbn [foldM]. unfold bindM at 1.
      by rewrite (add_localized_field_lang_unsupported CUSTOM m c _ st3 a fa l0
                    _ Hinv3 Ha HDa Hbad). }
    assert (Hreg : register LANGS CUSTOM [m] opts no_kwargs st =
                   (Err ImproperlyConfigured, st3)).
    { change (register LANGS CUSTOM [m] opts no_kwargs st) with
        (bindM (register_model LANGS CUSTOM opts no_kwargs m) (fun _ => ret tt) st).
      unfold bindM at 1. unfold register_model. unfold bindM at 1, get_st at 1.
      rewrite bool_decide_false by (rewrite Hunreg; by intros []).
      unfold bindM at 1, connect_signals, modify_st at 1.
      unfold bindM at 1, set_entry at 1, modify_st at 1.
      assert (Hkw : kwargs_nonempty no_kwargs = false) by reflexivity.
      rewrite Hkw. cbn [t_registry]. fold st2. unfold bindM at 1. rewrite Hadd. reflexivity. }
    cbn zeta. rewrite Hreg. split; [reflexivity|].
    destruct Hinv3 as (c' & Hc' & Hsame & Hin & _).
    exists c'. split; [exact Hc'|split].
    + intros f l Hf Hl. apply Hin. left. by exists f, l.
    + intros k Hk. apply Hsame. intros [(f & l & Hf & Hl & ->)|[]].
      exact (Hk f l Hf Hl eq_refl). }
Qed.

(** C8 (counterexample): registering [News] with [fields = ('title',
    'number')], where [number] is an [IntegerField], raises
    [ImproperlyConfigured]; the shadow field [title_de], absent before, has
    already been added to the model class. *)
Lemma C8_counterexample :
  let r := register Sample.LANGS [] ["News"] Sample.news_opts no_kwargs
             Sample.st_news in
  fst r = Err ImproperlyConfigured /\
  (t_classes Sample.st_news !! "News") ≫= (fun c => m_fields c !! "title_de")
    = None /\
  is_Some ((t_classes (snd r) !! "News") ≫= (fun c => m_fields c !! "title_de")).
Proof.
  split; [vm_compute; reflexivity|split; [vm_compute; reflexivity|]].
  vm_compute. eexists. reflexivity.
Qed.

(** ** Instances of the properties *)

Ltac mem_cases :=
  repeat match goal with
  | H : _ ∈ _ :: _ |- _ => apply elem_of_cons in H as [->|H]
  | H : _ ∈ [] |- _ => apply elem_of_nil in H; contradiction
  end.

Lemma C2_witness :
  (forall s0, snd ((fun s : save_state => (Err (A:=unit) DatabaseError, s)) s0) = s0) /\
  save_base Sample.DEFAULT (fun s => (Err DatabaseError, s)) (mk_save_state "en" None)
  = (Err DatabaseError, mk_save_state Sample.DEFAULT (Some "en")).
Proof.
  split; [reflexivity|].
  exact (C2_save_restores_only_on_success Sample.DEFAULT
           (fun s => (Err DatabaseError, s)) (mk_save_state "en" None)
           (fun s0 => eq_refl)).
Defined.

Lemma C4_witness :
  "en" <> Sample.DEFAULT /\
  descr_get (mk_descriptor "title" (field_fallback_value FBAbsent "title")) "en"
    (Some Sample.inst_de_other) = Ok (PStr "orig").
Proof.
  split; [vm_compute; congruence|].
  destruct (C4_get_non_default_language Sample.DEFAULT "en" "title" FBAbsent
              Sample.inst_de_other PNone (PStr "orig")) as (_ & _ & H).
  - vm_compute; congruence.
  - vm_compute; reflexivity.
  - vm_compute; reflexivity.
  - exact (H eq_refl eq_refl).
Defined.

Lemma C5_witness :
  idict Sample.inst_de_other !! build_localized_fieldname "title" Sample.DEFAULT
    = Some (PStr "other") /\
  descr_get (mk_descriptor "title" (field_fallback_value FBAbsent "title"))
    Sample.DEFAULT (Some Sample.inst_de_other) = Ok (PStr "other").
Proof.
  split; [vm_compute; reflexivity|].
  destruct (C5_get_default_language Sample.DEFAULT "title" FBAbsent
              Sample.inst_de_other (PStr "other") (PStr "orig")) as (H & _ & _).
  - vm_compute; reflexivity.
  - vm_compute; reflexivity.
  - exact (H eq_refl).
Defined.

Lemma C9_witness :
  idict Sample.inst_orig !! build_localized_fieldname "title" "fr" = None /\
  descr_get Sample.d_title "fr" (Some Sample.inst_orig) = Ok PNone.
Proof.
  split; [vm_compute; reflexivity|].
  apply (C9_get_without_shadow_is_none Sample.d_title "fr" Sample.inst_orig).
  vm_compute; reflexivity.
Defined.

Lemma C6_witness :
  t_registry Sample.st_abc !! "B" = None /\
  get_options_for_model "B" Sample.st_abc = (Ok Sample.b_opts, Sample.st_abc) /\
  (forall a, a ∈ o_fields Sample.b_opts <->
     exists p op, p ∈ m_parents Sample.b_cls /\
                  t_registry Sample.st_abc !! p = Some op /\ a ∈ o_fields op) /\
  exists l, o_loc Sample.b_opts = Some l /\
    forall k, l !! k = last_parent_entry (t_registry Sample.st_abc)
                         (m_parents Sample.b_cls) k.
Proof.
  split; [vm_compute; reflexivity|split; [vm_compute; reflexivity|]].
  destruct (C6_get_options_direct_parents_last_wins Sample.st_abc Sample.st_abc
              "B" Sample.b_cls Sample.b_opts) as (_ & H).
  - vm_compute; reflexivity.
  - vm_compute; reflexivity.
  - vm_compute; reflexivity.
  - exact H.
Defined.

Lemma C7_witness :
  t_registry Sample.st_abc !! "B" = None /\
  exists o, get_options_for_model "B" Sample.st_abc = (Ok o, Sample.st_abc) /\
            "titlea" ∈ o_fields o.
Proof.
  split; [vm_compute; reflexivity|].
  apply (C7_subtype_inherits_from_direct_parent Sample.st_abc "B" "A" "titlea"
           Sample.b_cls Sample.a_entry Sample.a_loc Sample.a_rev).
  - vm_compute; reflexivity.
  - vm_compute; reflexivity.
  - apply elem_of_cons; by left.
  - vm_compute; reflexivity.
  - vm_compute. apply elem_of_cons; by left.
  - vm_compute; reflexivity.
  - vm_compute. discriminate.
  - vm_compute; reflexivity.
  - vm_compute. discriminate.
  - intros p op Hp Hop. cbn in Hp. mem_cases.
    change (t_registry Sample.st_abc !! "A") with (Some Sample.a_entry) in Hop.
    injection Hop as <-. vm_compute. split; eexists; reflexivity.
Defined.

Lemma C8_witness :
  let r := register Sample.LANGS [] ["News"] Sample.news_opts no_kwargs
             Sample.st_news in
  fst r = Err ImproperlyConfigured /\
  exists c', t_classes (snd r) !! "News" = Some c' /\
    (forall f l, f ∈ ["title"] -> l ∈ Sample.LANGS ->
                 is_Some (m_fields c' !! build_localized_fieldname f l)) /\
    (forall k, (forall f l, f ∈ ["title"] -> l ∈ Sample.LANGS ->
                            k <> build_localized_fieldname f l) ->
               m_fields c' !! k = m_fields Sample.news_cls !! k).
Proof.
  apply (C8_unsupported_kind_raises_after_earlier_shadows Sample.LANGS []
           Sample.st_news "News" Sample.news_cls Sample.news_opts ["title"] []
           "number" (Sample.integer_field "number")).
  - vm_compute; reflexivity.
  - vm_compute; reflexivity.
  - reflexivity.
  - discriminate.
  - vm_compute; reflexivity.
  - vm_compute; reflexivity.
  - apply not_elem_of_nil.
  - intros f Hf. mem_cases. eexists. split; vm_compute; reflexivity.
  - apply (bool_decide_unpack _). vm_compute. exact I.
  - apply (bool_decide_unpack _). vm_compute. exact I.
  - intros f g l l' Hf Hg _ _ _. mem_cases. reflexivity.
  - intros g f l Hg Hf Hl. mem_cases; vm_compute; congruence.
  - intros f l Hf Hl. mem_cases; vm_compute; reflexivity.
Defined.

Lemma C10_witness :
  let st' := snd (register Sample.LANGS [] ["News"] Sample.news_opts no_kwargs
                    Sample.st_news) in
  (exists o, t_registry st' !! "News" = Some o /\
             get_options_for_model "News" st' = (Ok o, st')) /\
  (forall opts' kw',
     fst (register Sample.LANGS [] ["News"] opts' kw' st') = Err AlreadyRegistered).
Proof.
  apply (C10_register_not_atomic Sample.LANGS [] Sample.st_news "News"
           Sample.news_opts no_kwargs ImproperlyConfigured).
  - vm_compute; reflexivity.
  - vm_compute; reflexivity.
Defined.

Lemma C1_witness :
  idict (descr_set Sample.d_title "en" Sample.inst_orig (PStr "new"))
    !! "title_en" = Some (PStr "new") /\
  idict (descr_set Sample.d_title "en" Sample.inst_orig (PStr "new"))
    !! "title" = Some (PStr "new") /\
  idict (descr_set Sample.d_title "en" Sample.inst_orig (PStr "new"))
    !! "text" = idict Sample.inst_orig !! "text".
Proof.
  destruct (C1_set_writes_shadow_and_original Sample.d_title "en"
              Sample.inst_orig (PStr "new")) as (H1 & H2 & H3).
  split; [exact H1|split; [exact H2|]].
  apply H3; vm_compute; congruence.
Defined.

Lemma C3_witness :
  "title" ∈ ["title"] /\
  mt_update ["title"] "en" [("title", ULit "x")] [<["title" := "a"]> ∅]
  = [<["title_en" := "x"]> (<["title" := "a"]> ∅)].
Proof.
  split; [apply elem_of_cons; by left|].
  destruct C3_update_expressions_not_rewritten as (_ & H & _).
  apply (H ["title"] "en" "title" "x" [<["title" := "a"]> ∅]).
  apply elem_of_cons; by left.
Defined.

(** ** Reading back through the descriptors *)

(** [__get__] after [__set__] under the same language [L] returns the
    written value when it is truthy; a falsy one gives the fallback value
    when one is set, and the written value again (now in the original
    slot) otherwise. *)
Theorem descr_get_after_set (d : descriptor) (L : string) (i : instance)
    (v : pyval) :
  descr_get d L (Some (descr_set d L i v)) =
  Ok (if truthy v then v
      else if bool_decide (descr_fallback d = PNone) then v
      else descr_fallback d).
Proof.
  cbn. unfold setattr_inst. cbn.
  rewrite lookup_insert_ne by (apply not_eq_sym, build_localized_fieldname_ne).
  rewrite lookup_insert_eq.
  destruct (truthy v); [reflexivity|].
  destruct (bool_decide (descr_fallback d = PNone)); [|reflexivity].
  by rewrite lookup_insert_eq.
Qed.

(** A [__set__] under [L1] changes what [__get__] under another language
    [L2] returns only through the original slot: with the shadow slot of
    [L2] holding [x], the read gives [x] when it is truthy, and otherwise
    the fallback value or, without one, the value just written under
    [L1]. *)
Theorem descr_get_other_language_after_set (d : descriptor) (L1 L2 : string)
    (i : instance) (v x : pyval)
    (HL : L1 <> L2)
    (Hx : idict i !! build_localized_fieldname (descr_field d) L2 = Some x) :
  descr_get d L2 (Some (descr_set d L1 i v)) =
  Ok (if truthy x then x
      else if bool_decide (descr_fallback d = PNone) then v
      else descr_fallback d).
Proof.
  cbn. unfold setattr_inst. cbn.
  rewrite lookup_insert_ne by (apply not_eq_sym, build_localized_fieldname_ne).
  rewrite lookup_insert_ne
    by (intros Heq; apply HL; exact (build_localized_fieldname_inj _ _ _ Heq)).
  rewrite Hx.
  destruct (truthy x); [reflexivity|].
  destruct (bool_decide (descr_fallback d = PNone)); [|reflexivity].
  by rewrite lookup_insert_eq.
Qed.

(** Two [__set__] under the same language: the second overwrites both
    slots the first wrote, leaving the instance as the second alone
    would. *)
Theorem descr_set_twice (d : descriptor) (L : string) (i : instance)
    (v w : pyval) :
  descr_set d L (descr_set d L i v) w = descr_set d L i w.
Proof.
  unfold descr_set, setattr_inst. cbn. f_equal.
  apply map_eq. intros k.
  destruct (decide (k = descr_field d)) as [->|Hk1].
  { by rewrite !lookup_insert_eq. }
  rewrite !(lookup_insert_ne _ (descr_field d)) by congruence.
  destruct (decide (k = build_localized_fieldname (descr_field d) L)) as [->|Hk2].
  { by rewrite !lookup_insert_eq. }
  rewrite !lookup_insert_ne by congruence. reflexivity.
Qed.

(** [TranslationFileDescriptor.__get__]: without an instance it raises
    [AttributeError]; without the shadow slot of the active language in
    [__dict__] it raises [KeyError].  A path string, [None], a plain
    [File] or a [FieldFile] without [field] in the slot is replaced by a
    [FieldFile] with its [field] set (committed unless it wraps a plain
    [File], whose name it takes) and returned; nothing else of the
    instance changes. *)
Theorem fd_get_wraps (fname L : string) (i : gmap string fval) :
  fd_get fname L None = (Err AttributeError, None) /\
  (i !! build_localized_fieldname fname L = None ->
   fd_get fname L (Some i) = (Err KeyError, Some i)) /\
  (forall v, i !! build_localized_fieldname fname L = Some v -> v <> FVOther ->
   exists n w c,
     fd_get fname L (Some i) =
       (Ok (FVFieldFile n w true c),
        Some (<[build_localized_fieldname fname L := FVFieldFile n w true c]> i)) /\
     match v with
     | FVStr s => n = Some s /\ w = None /\ c = true
     | FVNone => n = None /\ w = None /\ c = true
     | FVFile nm => n = nm /\ w = Some nm /\ c = false
     | FVFieldFile nm wf _ cm => n = nm /\ w = wf /\ c = cm
     | FVOther => False
     end).
Proof.
  split; [reflexivity|split].
  - intros H. cbn. by rewrite H.
  - intros v Hv Hother. cbn. rewrite Hv.
    destruct v as [s| |nm|nm wf [] cm|]; [| | | | |done].
    + exists (Some s), None, true. by rewrite lookup_insert_eq.
    + exists None, None, true. by rewrite lookup_insert_eq.
    + exists nm, (Some nm), false. by rewrite lookup_insert_eq.
    + exists nm, wf, cm. split; [|done]. rewrite Hv. f_equal. f_equal.
      apply map_eq. intros k.
      destruct (decide (k = build_localized_fieldname fname L)) as [->|Hk].
      * by rewrite lookup_insert_eq.
      * by rewrite lookup_insert_ne by congruence.
    + exists nm, wf, cm. by rewrite lookup_insert_eq.
Qed.

(** [TranslationFileDescriptor.__get__] is idempotent: reading again from
    the instance the first read left gives the same result and changes
    nothing more, whatever the slot held (the wrapped value is cached). *)
Theorem fd_get_idempotent (fname L : string) (i : gmap string fval) :
  match fd_get fname L (Some i) with
  | (r, Some i') => fd_get fname L (Some i') = (r, Some i')
  | (_, None) => False
  end.
Proof.
  cbn. set (k := build_localized_fieldname fname L).
  destruct (i !! k) as [v|] eqn:Hv.
  - destruct v as [s| |nm|nm wf [] cm|]; rewrite ?lookup_insert_eq, ?Hv; cbn;
      rewrite ?lookup_insert_eq, ?Hv; try reflexivity.
    all: rewrite insert_insert_eq; reflexivity.
  - by rewrite Hv.
Qed.

(** ** What a successful registration leaves behind *)











Lemma fold_insert_lookup (o : string) :
  forall (lns : list string) (r : gmap string string) k,
  fold_left (fun acc ln => <[ln := o]> acc) lns r !! k =
  if bool_decide (k ∈ lns) then Some o else r !! k.
Proof.
  induction lns as [|ln lns IH]; intros r k; [reflexivity|].
  cbn. rewrite IH.
  destruct (decide (k ∈ lns)) as [Hk|Hk].
  - rewrite !bool_decide_true by (try apply elem_of_cons; auto). reflexivity.
  - rewrite (bool_decide_false (k ∈ lns)) by exact Hk.
    destruct (decide (k = ln)) as [->|Hkl].
    + rewrite bool_decide_true by (apply elem_of_cons; by left).
      apply lookup_insert_eq.
    + rewrite bool_decide_false by (rewrite elem_of_cons; intros [|]; contradiction).
      by rewrite lookup_insert_ne by congruence.
Qed.

Lemma build_rev_sound_complete (loc : gmap string (list string)) :
  (forall k o, build_rev loc !! k = Some o -> exists ts, loc !! o = Some ts /\ k ∈ ts) /\
  (forall o ts k, loc !! o = Some ts -> k ∈ ts -> is_Some (build_rev loc !! k)).
Proof.
  unfold build_rev.
  apply (map_fold_weak_ind
           (fun (r : gmap string string) (m : gmap string (list string)) =>
              (forall k o, r !! k = Some o -> exists ts, m !! o = Some ts /\ k ∈ ts) /\
              (forall o ts k, m !! o = Some ts -> k ∈ ts -> is_Some (r !! k)))).
  - split; intros *; rewrite lookup_empty; discriminate.
  - intros i x m r Hi [Hs Hc]. split.
    + intros k o Hk. rewrite fold_insert_lookup in Hk.
      destruct (decide (k ∈ x)) as [Hkx|Hkx].
      * rewrite bool_decide_true in Hk by exact Hkx. injection Hk as <-.
        exists x. by rewrite lookup_insert_eq.
      * rewrite bool_decide_false in Hk by exact Hkx.
        destruct (Hs k o Hk) as (ts & Hts & Hkts). exists ts.
        rewrite lookup_insert_ne by congruence. done.
    + intros o ts k Ho Hk. rewrite fold_insert_lookup.
      destruct (decide (k ∈ x)) as [Hkx|Hkx].
      * rewrite bool_decide_true by exact Hkx. by eexists.
      * rewrite bool_decide_false by exact Hkx.
        destruct (decide (o = i)) as [->|Hoi].
        -- rewrite lookup_insert_eq in Ho. injection Ho as <-. contradiction.
        -- rewrite lookup_insert_ne in Ho by congruence. exact (Hc o ts k Ho Hk).
Qed.


(** The reverse dict [register] builds maps every name of a list of
    [localized_fieldnames] to a key whose list holds it, and each such name
    has an entry; a name found in the list of one key only maps to that
    key. *)
Theorem build_rev_inverse (loc : gmap string (list string)) :
  (forall k o, build_rev loc !! k = Some o -> exists ts, loc !! o = Some ts /\ k ∈ ts) /\
  (forall o ts k, loc !! o = Some ts -> k ∈ ts ->
     (forall o' ts', loc !! o' = Some ts' -> k ∈ ts' -> o' = o) ->
     build_rev loc !! k = Some o).
Proof.
  destruct (build_rev_sound_complete loc) as [Hs Hc]. split; [exact Hs|].
  intros o ts k Ho Hk Hu. destruct (Hc o ts k Ho Hk) as [o'' Ho''].
  destruct (Hs k o'' Ho'') as (ts'' & Hts'' & Hk'').
  rewrite Ho''. f_equal. exact (Hu o'' ts'' Hts'' Hk'').
Qed.


Lemma grows_refl (m : string) (s : tstate) : grows m s s.
Proof. intros c Hc. by exists c. Qed.

Lemma grows_trans (m : string) (s1 s2 s3 : tstate) :
  grows m s1 s2 -> grows m s2 s3 -> grows m s1 s3.
Proof.
  intros H12 H23 c Hc. destruct (H12 c Hc) as (c2 & Hc2 & Hk2).
  destruct (H23 c2 Hc2) as (c3 & Hc3 & Hk3). exists c3. split; [exact Hc3|].
  intros k Hk. by apply Hk3, Hk2.
Qed.




Lemma grows_forM {A} (m : string) (body : A -> M tstate unit) :
  (forall x s, grows m s (snd (body x s))) ->
  forall xs s, grows m s (snd (forM xs body s)).
Proof.
  intros Hb. induction xs as [|x xs IH]; intros s; [apply grows_refl|].
  cbn. unfold bindM. pose proof (Hb x s) as H1.
  destruct (body x s) as [[a|e] s1]; cbn in H1 |- *; [|exact H1].
  exact (grows_trans _ _ _ _ H1 (IH s1)).
Qed.







Lemma unregister_cons (m : string) (ms : list string) (st : tstate) :
  unregister (m :: ms) st =
  if bool_decide (is_Some (t_registry st !! m))
  then unregister ms (set_registry st (delete m (t_registry st)))
  else (Err NotRegistered, st).
Proof.
  cbn. unfold bindM, unregister_model, bindM, get_st.
  destruct (bool_decide _); reflexivity.
Qed.

Lemma unregister_prefix (pre rest : list string) :
  forall st, NoDup pre -> (forall m, m ∈ pre -> is_Some (t_registry st !! m)) ->
  exists r', unregister (pre ++ rest) st = unregister rest (set_registry st r') /\
    forall k, r' !! k = if bool_decide (k ∈ pre) then None else t_registry st !! k.
Proof.
  induction pre as [|x pre IH]; intros st Hnd Hreg.
  - exists (t_registry st). split; [by destruct st|].
    intros k. rewrite bool_decide_false by (intros H; by apply elem_of_nil in H).
    reflexivity.
  - apply NoDup_cons in Hnd as [Hx Hnd].
    cbn [app]. rewrite unregister_cons.
    rewrite bool_decide_true by (apply Hreg; apply elem_of_cons; by left).
    destruct (IH (set_registry st (delete x (t_registry st))) Hnd) as (r' & Hu & Hr').
    { intros y Hy. cbn. rewrite lookup_delete_ne by (intros ->; contradiction).
      apply Hreg. apply elem_of_cons; by right. }
    exists r'. split; [exact Hu|]. intros k. rewrite Hr'. cbn.
    destruct (decide (k = x)) as [->|Hne].
    + rewrite lookup_delete_eq. rewrite (bool_decide_true (x ∈ x :: pre))
        by (apply elem_of_cons; by left).
      by destruct (bool_decide _).
    + rewrite lookup_delete_ne by congruence.
      destruct (bool_decide_reflect (k ∈ pre)) as [Hk|Hk].
      * rewrite bool_decide_true; [reflexivity|]. apply elem_of_cons; by right.
      * rewrite bool_decide_false; [reflexivity|].
        intros Hk'. apply elem_of_cons in Hk' as [->|Hk']; contradiction.
Qed.

(** [unregister(models)] succeeds exactly when the models are pairwise
    distinct and every one of them is registered: a model named twice is
    no longer registered the second time. *)
Theorem unregister_ok_iff (ms : list string) (st : tstate) :
  fst (unregister ms st) = Ok tt <->
  NoDup ms /\ forall m, m ∈ ms -> is_Some (t_registry st !! m).
Proof.
  revert st. induction ms as [|x ms IH]; intros st.
  - split; [|reflexivity]. intros _. split; [constructor|].
    intros m Hm. by apply elem_of_nil in Hm.
  - rewrite unregister_cons. split.
    + destruct (bool_decide_reflect (is_Some (t_registry st !! x))) as [Hx|Hx];
        [|discriminate].
      intros H. apply IH in H as [Hnd Hreg]. cbn in Hreg. split.
      * constructor; [|exact Hnd]. intros Hin. destruct (Hreg x Hin) as [o Ho].
        by rewrite lookup_delete_eq in Ho.
      * intros m Hm. apply elem_of_cons in Hm as [->|Hm]; [exact Hx|].
        destruct (Hreg m Hm) as [o Ho].
        destruct (decide (m = x)) as [->|Hne]; [by rewrite lookup_delete_eq in Ho|].
        rewrite lookup_delete_ne in Ho by congruence. by exists o.
    + intros [Hnd Hreg]. apply NoDup_cons in Hnd as [Hx Hnd].
      rewrite bool_decide_true by (apply Hreg; apply elem_of_cons; by left).
      apply IH. split; [exact Hnd|]. intros m Hm. cbn.
      rewrite lookup_delete_ne by (intros ->; contradiction).
      apply Hreg. apply elem_of_cons; by right.
Qed.

(** A successful [unregister(models)] deletes exactly the given models
    from the registry and leaves the model classes (with their shadow
    fields and descriptors) and the connected signals as they were. *)
Theorem unregister_ok_state (ms : list string) (st : tstate)
    (Hnd : NoDup ms) (Hreg : forall m, m ∈ ms -> is_Some (t_registry st !! m)) :
  exists r', unregister ms st = (Ok tt, mk_tstate (t_classes st) r' (t_connected st)) /\
    forall k, r' !! k = if bool_decide (k ∈ ms) then None else t_registry st !! k.
Proof.
  destruct (unregister_prefix ms [] st Hnd Hreg) as (r' & Hu & Hr').
  rewrite app_nil_r in Hu. exists r'. split; [exact Hu|exact Hr'].
Qed.

(** [unregister] is not atomic: when the model [m] after the distinct,
    registered models [pre] is not registered (or was among [pre]), it
    raises [NotRegistered] and the models of [pre] stay deleted; the models
    after [m] are not looked at. *)
Theorem unregister_fails_partially (pre post : list string) (m : string)
    (st : tstate) (Hnd : NoDup pre)
    (Hreg : forall x, x ∈ pre -> is_Some (t_registry st !! x))
    (Hm : m ∈ pre \/ t_registry st !! m = None) :
  exists r', unregister (pre ++ m :: post) st =
    (Err NotRegistered, mk_tstate (t_classes st) r' (t_connected st)) /\
    forall k, r' !! k = if bool_decide (k ∈ pre) then None else t_registry st !! k.
Proof.
  destruct (unregister_prefix pre (m :: post) st Hnd Hreg) as (r' & Hu & Hr').
  exists r'. split; [|exact Hr']. rewrite Hu, unregister_cons. cbn.
  rewrite bool_decide_false; [reflexivity|].
  rewrite Hr'. destruct Hm as [Hm|Hm].
  - rewrite bool_decide_true by exact Hm. by intros [? ?].
  - destruct (bool_decide _); [by intros [? ?]|]. rewrite Hm. by intros [? ?].
Qed.




Lemma merge_parents_unregistered (reg : gmap string topts) (ps : list string) :
  forall F L R, (forall p, p ∈ ps -> reg !! p = None) ->
  merge_parents reg ps F L R = Ok (F, L, R).
Proof.
  induction ps as [|p ps IH]; intros F L R Hps; [reflexivity|].
  cbn. rewrite (Hps p) by (apply elem_of_cons; by left).
  apply IH. intros q Hq. apply Hps. apply elem_of_cons; by right.
Qed.

Lemma merge_parents_fields (reg : gmap string topts) (ps : list string) :
  forall F L R F' L' R', merge_parents reg ps F L R = Ok (F', L', R') ->
  forall f, f ∈ F' <-> f ∈ F \/
    exists p po, p ∈ ps /\ reg !! p = Some po /\ f ∈ o_fields po.
Proof.
  induction ps as [|p ps IH]; intros F L R F' L' R' H f.
  - injection H as <- _ _. split; [by left|].
    intros [Hf|(p & po & Hp & _)]; [exact Hf|by apply elem_of_nil in Hp].
  - cbn in H. destruct (reg !! p) as [po|] eqn:Hp.
    + destruct (o_loc po), (o_rev po); try discriminate.
      rewrite (IH _ _ _ _ _ _ H f). rewrite elem_of_union, elem_of_list_to_set.
      split.
      * intros [[Hf|Hf]|(q & qo & Hq & Hqo & Hf)].
        -- right. exists p, po. split; [apply elem_of_cons; by left|by split].
        -- by left.
        -- right. exists q, qo. split; [apply elem_of_cons; by right|by split].
      * intros [Hf|(q & qo & Hq & Hqo & Hf)]; [left; by right|].
        apply elem_of_cons in Hq as [->|Hq].
        -- rewrite Hp in Hqo. injection Hqo as <-. left; by left.
        -- right. by exists q, qo.
    + rewrite (IH _ _ _ _ _ _ H f). split.
      * intros [Hf|(q & qo & Hq & Hqo & Hf)]; [by left|].
        right. exists q, qo. split; [apply elem_of_cons; by right|by split].
      * intros [Hf|(q & qo & Hq & Hqo & Hf)]; [by left|].
        apply elem_of_cons in Hq as [->|Hq]; [congruence|].
        right. by exists q, qo.
Qed.

(** [get_options_for_model] on a model that is not registered and none of
    whose direct parents is registered raises [NotRegistered] and changes
    nothing. *)
Theorem get_options_no_registered_parent (m : string) (st : tstate)
    (Hunreg : t_registry st !! m = None)
    (Hps : forall c p, t_classes st !! m = Some c -> p ∈ m_parents c ->
                       t_registry st !! p = None) :
  get_options_for_model m st = (Err NotRegistered, st).
Proof.
  unfold get_options_for_model. rewrite Hunreg.
  rewrite merge_parents_unregistered.
  - rewrite bool_decide_false; [reflexivity|]. by intros [].
  - intros p Hp. destruct (t_classes st !! m) as [c|] eqn:Hc;
      [exact (Hps c p eq_refl Hp)|by apply elem_of_nil in Hp].
Qed.

(** When [get_options_for_model] builds options for a model that is not
    registered, it leaves the state as it was; the options have no
    fallback values, and their fields, listed without repetition, are
    exactly the fields of the options of the model's registered direct
    parents. *)
Theorem get_options_inherited_fields (m : string) (st st' : tstate) (o : topts)
    (Hunreg : t_registry st !! m = None)
    (Hok : get_options_for_model m st = (Ok o, st')) :
  st' = st /\ o_fallback o = FBAbsent /\ NoDup (o_fields o) /\
  forall f, f ∈ o_fields o <->
    exists c p po, t_classes st !! m = Some c /\ p ∈ m_parents c /\
                   t_registry st !! p = Some po /\ f ∈ o_fields po.
Proof.
  unfold get_options_for_model in Hok. rewrite Hunreg in Hok.
  destruct (merge_parents _ _ _ _ _) as [[[F L] R]|e] eqn:Hm; [|discriminate].
  destruct (_ && _ && _); [|discriminate].
  injection Hok as <- <-. cbn. split; [reflexivity|]. split; [reflexivity|].
  split; [apply NoDup_elements|]. intros f. rewrite elem_of_elements.
  rewrite (merge_parents_fields _ _ _ _ _ _ _ _ Hm f). split.
  - intros [Hf|(p & po & Hp & Hpo & Hf)]; [by apply elem_of_empty in Hf|].
    destruct (t_classes st !! m) as [c|] eqn:Hc; [|by apply elem_of_nil in Hp].
    by exists c, p, po.
  - intros (c & p & po & Hc & Hp & Hpo & Hf). rewrite Hc. right. by exists p, po.
Qed.

Lemma py_index_elem (x : string) (l : list string) :
  x ∈ l -> exists i, py_index x l = Some i /\ l !! i = Some x.
Proof.
  induction l as [|y l IH]; intros Hx; [by apply elem_of_nil in Hx|].
  cbn. destruct (bool_decide_reflect (x = y)) as [->|Hne]; [by exists 0%nat|].
  apply elem_of_cons in Hx as [->|Hx]; [contradiction|].
  destruct (IH Hx) as (i & Hi & Hli). rewrite Hi. by exists (S i).
Qed.

Lemma slice_replace_elem (l t : list string) (i : nat) (x : string) :
  l !! i = Some x -> x ∈ t ->
  forall y, y ∈ (take i l ++ t ++ drop (S i) l)%list <-> y ∈ l \/ y ∈ t.
Proof.
  intros Hi Hx y. rewrite <- (take_drop_middle l i x Hi) at 3.
  rewrite !elem_of_app, elem_of_cons. split; [tauto|].
  intros [[H|[->|H]]|H]; tauto.
Qed.

Lemma existsb_not_in_false (tf on : list string) :
  existsb (fun f => negb (bool_decide (f ∈ on))) tf = false ->
  forall f, f ∈ tf -> f ∈ on.
Proof.
  induction tf as [|g tf IH]; intros H f Hf; [by apply elem_of_nil in Hf|].
  cbn in H. apply orb_false_iff in H as [Hg H].
  apply elem_of_cons in Hf as [Hf|Hf]; [subst f|exact (IH H f Hf)].
  destruct (bool_decide_reflect (g ∈ on)) as [Hin|Hin]; [exact Hin|discriminate].
Qed.

Lemma add_translation_fields_loop_ok (trans : list string)
    (gtf : string -> bool -> list string)
    (Hincl : forall f, f ∈ trans -> f ∈ gtf f true) :
  forall orig on, (forall x, x ∈ orig -> x ∈ on) ->
  exists r, add_translation_fields_loop trans gtf orig on = Ok r /\
    (forall x, x ∈ on -> x ∈ r) /\
    (forall x f, x ∈ orig -> x ∈ trans -> f ∈ gtf x true -> f ∈ r) /\
    (forall y, y ∈ r -> y ∈ on \/
       exists x, x ∈ orig /\ x ∈ trans /\ y ∈ gtf x true).
Proof.
  induction orig as [|opt rest IH]; intros on Hon.
  - exists on. split; [reflexivity|]. split; [done|]. split.
    + intros x f Hx. by apply elem_of_nil in Hx.
    + intros y Hy. by left.
  - cbn. assert (Hrest : forall x, x ∈ rest -> x ∈ on)
      by (intros x Hx; apply Hon, elem_of_cons; by right).
    destruct (bool_decide_reflect (opt ∈ trans)) as [Ht|Ht].
    + destruct (py_index_elem opt on) as (i & Hi & Hli);
        [apply Hon, elem_of_cons; by left|].
      rewrite Hi.
      destruct (existsb _ (gtf opt true)) eqn:Hex.
      * pose proof (slice_replace_elem on (gtf opt true) i opt Hli (Hincl opt Ht)) as Hsl.
        destruct (IH (take i on ++ gtf opt true ++ drop (S i) on)%list)
          as (r & Hr & Hsub & Hcov & Hback).
        { intros x Hx. apply Hsl. left. exact (Hrest x Hx). }
        exists r. split; [exact Hr|]. split; [|split].
        -- intros x Hx. apply Hsub, Hsl. by left.
        -- intros x f Hx Hxt Hf. apply elem_of_cons in Hx as [->|Hx].
           ++ apply Hsub, Hsl. by right.
           ++ exact (Hcov x f Hx Hxt Hf).
        -- intros y Hy. destruct (Hback y Hy) as [Hy'|(x & Hx & Hxt & Hyx)].
           ++ apply Hsl in Hy' as [Hy'|Hy']; [by left|].
              right. exists opt. split; [apply elem_of_cons; by left|by split].
           ++ right. exists x. split; [apply elem_of_cons; by right|by split].
      * pose proof (existsb_not_in_false _ _ Hex) as Hall.
        destruct (IH on Hrest) as (r & Hr & Hsub & Hcov & Hback).
        exists r. split; [exact Hr|]. split; [exact Hsub|]. split.
        -- intros x f Hx Hxt Hf. apply elem_of_cons in Hx as [->|Hx].
           ++ apply Hsub, Hall, Hf.
           ++ exact (Hcov x f Hx Hxt Hf).
        -- intros y Hy. destruct (Hback y Hy) as [Hy'|(x & Hx & Hxt & Hyx)];
             [by left|].
           right. exists x. split; [apply elem_of_cons; by right|by split].
    + destruct (IH on Hrest) as (r & Hr & Hsub & Hcov & Hback).
      exists r. split; [exact Hr|]. split; [exact Hsub|]. split.
      * intros x f Hx Hxt Hf. apply elem_of_cons in Hx as [->|Hx]; [contradiction|].
        exact (Hcov x f Hx Hxt Hf).
      * intros y Hy. destruct (Hback y Hy) as [Hy'|(x & Hx & Hxt & Hyx)]; [by left|].
        right. exists x. split; [apply elem_of_cons; by right|by split].
Qed.

Lemma add_translation_fields_loop_none (trans : list string)
    (gtf : string -> bool -> list string) :
  forall orig on, (forall x, x ∈ orig -> x ∉ trans) ->
  add_translation_fields_loop trans gtf orig on = Ok on.
Proof.
  induction orig as [|opt rest IH]; intros on Hn; [reflexivity|].
  cbn. rewrite bool_decide_false by (apply Hn, elem_of_cons; by left).
  apply IH. intros x Hx. apply Hn, elem_of_cons. by right.
Qed.

(** [add_translation_fields(option)] returns [option] unmodified when none
    of its entries is a translated field. *)
Theorem add_translation_fields_unregistered (trans : list string)
    (gtf : string -> bool -> list string) (option : list string)
    (Hn : forall x, x ∈ option -> x ∉ trans) :
  add_translation_fields trans gtf option = Ok option.
Proof.
  destruct option as [|x xs]; [reflexivity|].
  exact (add_translation_fields_loop_none trans gtf (x :: xs) (x :: xs) Hn).
Qed.

(** When [get_translation_fields(f, include_original=True)] lists [f]
    itself, as it does, [add_translation_fields(option)] does not raise;
    its result keeps every entry of [option], contains every translation
    field of every translated field of [option], and contains nothing
    else. *)
Theorem add_translation_fields_covers (trans : list string)
    (gtf : string -> bool -> list string)
    (Hincl : forall f, f ∈ trans -> f ∈ gtf f true) (option : list string) :
  exists r, add_translation_fields trans gtf option = Ok r /\
    (forall x, x ∈ option -> x ∈ r) /\
    (forall x f, x ∈ option -> x ∈ trans -> f ∈ gtf x true -> f ∈ r) /\
    (forall y, y ∈ r -> y ∈ option \/
       exists x, x ∈ option /\ x ∈ trans /\ y ∈ gtf x true).
Proof.
  destruct option as [|x xs].
  - exists []. split; [reflexivity|]. split; [done|]. split.
    + intros y f Hy. by apply elem_of_nil in Hy.
    + intros y Hy. by left.
  - exact (add_translation_fields_loop_ok trans gtf Hincl (x :: xs) (x :: xs)
             (fun y Hy => Hy)).
Qed.

Lemma patch_prepopulated_fields_fold_ok (trans : list string)
    (gtf : string -> bool -> list string) (pf : gmap string (list string))
    (Hok : forall k v, pf !! k = Some v -> v <> [] /\
             forall v0 rest, v = v0 :: rest -> v0 ∈ trans -> gtf v0 false <> []) :
  pf <> ∅ ->
  exists pf', patch_prepopulated_fields trans gtf pf = Some pf' /\
    forall k, pf' !! k =
      match pf !! k with
      | Some (v0 :: rest) =>
          if bool_decide (v0 ∈ trans) then Some (take 1 (gtf v0 false))
          else Some (v0 :: rest)
      | o => o
      end.
Proof.
  intros Hne. unfold patch_prepopulated_fields. rewrite bool_decide_false by exact Hne.
  match goal with |- context [map_fold ?F (Some pf) pf] => set (G := F) end.
  assert (Hgen : forall m, m ⊆ pf -> exists acc, map_fold G (Some pf) m = Some acc /\
    forall k, acc !! k =
      match m !! k with
      | Some (v0 :: rest) =>
          if bool_decide (v0 ∈ trans) then Some (take 1 (gtf v0 false))
          else Some (v0 :: rest)
      | Some [] => Some []
      | None => pf !! k
      end).
  { refine (map_fold_weak_ind (fun r m => m ⊆ pf -> exists acc, r = Some acc /\
      forall k, acc !! k =
        match m !! k with
        | Some (v0 :: rest) =>
            if bool_decide (v0 ∈ trans) then Some (take 1 (gtf v0 false))
            else Some (v0 :: rest)
        | Some [] => Some []
        | None => pf !! k
        end) G (Some pf) _ _).
    - intros _. exists pf. split; [reflexivity|]. intros k. by rewrite lookup_empty.
    - intros i x m r Hi IH Hsub.
      assert (Hx : pf !! i = Some x)
        by (apply (lookup_weaken (<[i:=x]> m)); [apply lookup_insert_eq|exact Hsub]).
      destruct IH as (acc & -> & Hacc).
      { etrans; [apply insert_subseteq; exact Hi|exact Hsub]. }
      destruct (Hok i x Hx) as [Hxne Hgtf].
      destruct x as [|v0 rest]; [contradiction|].
      unfold G. destruct (bool_decide_reflect (v0 ∈ trans)) as [Ht|Ht].
      + destruct (gtf v0 false) as [|t0 ts] eqn:Hg; [by exfalso; apply (Hgtf v0 rest)|].
        eexists. split; [reflexivity|]. intros k.
        destruct (decide (k = i)) as [->|Hki].
        * rewrite !lookup_insert_eq. rewrite bool_decide_true by exact Ht.
          by rewrite Hg.
        * rewrite !lookup_insert_ne by congruence. apply Hacc.
      + eexists. split; [reflexivity|]. intros k.
        destruct (decide (k = i)) as [->|Hki].
        * rewrite lookup_insert_eq, bool_decide_false by exact Ht.
          rewrite Hacc, Hi. exact Hx.
        * rewrite lookup_insert_ne by congruence. apply Hacc. }
  destruct (Hgen pf (reflexivity _)) as (acc & Hf & Hacc).
  exists acc. split; [exact Hf|]. intros k. rewrite Hacc.
  by destruct (pf !! k) as [[|v0 rest]|].
Qed.

(** When every value of [prepopulated_fields] is non-empty and every
    translated first field has a translation field,
    [_patch_prepopulated_fields] does not raise: each value whose first
    field is translated becomes the one-element tuple of that field's
    first translation field; every other entry is kept. *)
Theorem patch_prepopulated_fields_ok (trans : list string)
    (gtf : string -> bool -> list string) (pf : gmap string (list string))
    (Hok : forall k v, pf !! k = Some v -> v <> [] /\
             forall v0 rest, v = v0 :: rest -> v0 ∈ trans -> gtf v0 false <> []) :
  exists pf', patch_prepopulated_fields trans gtf pf = Some pf' /\
    forall k, pf' !! k =
      match pf !! k with
      | Some (v0 :: rest) =>
          if bool_decide (v0 ∈ trans) then Some (take 1 (gtf v0 false))
          else Some (v0 :: rest)
      | o => o
      end.
Proof.
  destruct (decide (pf = ∅)) as [->|Hne].
  - exists ∅. split; [reflexivity|]. intros k. by rewrite lookup_empty.
  - exact (patch_prepopulated_fields_fold_ok trans gtf pf Hok Hne).
Qed.

(** [_patch_prepopulated_fields] raises [IndexError] (the result [None])
    as soon as one value of [prepopulated_fields] is empty, or begins with
    a translated field that has no translation field. *)
Theorem patch_prepopulated_fields_index_error (trans : list string)
    (gtf : string -> bool -> list string) (pf : gmap string (list string))
    (k : string) (v : list string) (Hk : pf !! k = Some v)
    (Hbad : v = [] \/ exists v0 rest, v = v0 :: rest /\ v0 ∈ trans /\
                                      gtf v0 false = []) :
  patch_prepopulated_fields trans gtf pf = None.
Proof.
  unfold patch_prepopulated_fields.
  rewrite bool_decide_false by (intros ->; by rewrite lookup_empty in Hk).
  revert Hk.
  match goal with |- _ -> map_fold ?F (Some pf) pf = None => set (G := F) end.
  generalize pf at 1 3. intros m.
  revert m. refine (map_fold_weak_ind (fun r m => m !! k = Some v -> r = None) G
                      (Some pf) _ _).
  - intros H. by rewrite lookup_empty in H.
  - intros i x m r Hi IH Hk. unfold G.
    destruct (decide (k = i)) as [->|Hki].
    + rewrite lookup_insert_eq in Hk. injection Hk as ->.
      destruct r as [acc|]; [|reflexivity].
      destruct Hbad as [->|(v0 & rest & -> & Ht & Hg)]; [reflexivity|].
      rewrite bool_decide_true by exact Ht. by rewrite Hg.
    + rewrite lookup_insert_ne in Hk by congruence. by rewrite (IH Hk).
Qed.

Lemma string_app_assoc (a b c : string) : (a +:+ b) +:+ c = a +:+ (b +:+ c).
Proof.
  induction a as [|x a IH]; [reflexivity|].
  change (String x ((a +:+ b) +:+ c) = String x (a +:+ (b +:+ c))).
  by rewrite IH.
Qed.

Lemma string_app_empty_r (a : string) : a +:+ "" = a.
Proof.
  induction a as [|x a IH]; [reflexivity|].
  change (String x (a +:+ "") = String x a). by rewrite IH.
Qed.

Lemma split_last_underscore_acc_app (s t cur : string) :
  split_last_underscore_acc (s +:+ t) cur =
  split_last_underscore_acc t (split_last_underscore_acc s cur).
Proof.
  revert cur. induction s as [|c s IH]; intros cur; [reflexivity|].
  change (split_last_underscore_acc (String c (s +:+ t)) cur =
          split_last_underscore_acc t (split_last_underscore_acc (String c s) cur)).
  cbn [split_last_underscore_acc]. destruct (bool_decide _); apply IH.
Qed.

Lemma split_last_underscore_acc_plain (l : string) :
  forall cur, (forall n c, String.get n l = Some c -> String c EmptyString <> "_") ->
  split_last_underscore_acc l cur = cur +:+ l.
Proof.
  induction l as [|c l IH]; intros cur Hl.
  - cbn [split_last_underscore_acc]. by rewrite string_app_empty_r.
  - cbn [split_last_underscore_acc].
    rewrite bool_decide_false by exact (Hl 0%nat c eq_refl).
    rewrite IH by (intros n c' H; exact (Hl (S n) c' H)).
    rewrite string_app_assoc. reflexivity.
Qed.

(** [tfield.split('_')[-1]] of a localized field name
    [build_localized_fieldname(f, l)] is the language [l] when [l]
    contains no underscore, whatever underscores the field name [f]
    contains. *)
Theorem split_last_underscore_build (f l : string)
    (Hl : forall n c, String.get n l = Some c -> String c EmptyString <> "_") :
  split_last_underscore (build_localized_fieldname f l) = l.
Proof.
  unfold split_last_underscore, build_localized_fieldname.
  rewrite !split_last_underscore_acc_app. cbn [split_last_underscore_acc].
  rewrite bool_decide_true by reflexivity.
  rewrite split_last_underscore_acc_plain by exact Hl. reflexivity.
Qed.

Lemma excludes_inner (excl : list string) :
  forall ts ex, NoDup ex ->
  let r := fold_left (fun exclude tfield =>
             if bool_decide (split_last_underscore tfield ∈ excl)
                && negb (bool_decide (tfield ∈ exclude))
             then (exclude ++ [tfield])%list else exclude) ts ex in
  NoDup r /\ forall t, t ∈ r <-> t ∈ ex \/ (t ∈ ts /\ split_last_underscore t ∈ excl).
Proof.
  induction ts as [|t0 ts IH]; intros ex Hnd; cbn zeta; cbn [fold_left].
  - split; [exact Hnd|]. intros t. split; [by left|].
    intros [H|[H _]]; [exact H|by apply elem_of_nil in H].
  - destruct (bool_decide_reflect (split_last_underscore t0 ∈ excl)) as [Hl|Hl];
      destruct (bool_decide_reflect (t0 ∈ ex)) as [Hin|Hin]; cbn.
    + destruct (IH ex Hnd) as [Hnd' Hr]. split; [exact Hnd'|]. intros t.
      rewrite Hr, elem_of_cons. split; [tauto|].
      intros [H|[[->|H] H']]; tauto.
    + assert (Hnd2 : NoDup (ex ++ [t0])%list).
      { apply NoDup_app. split; [exact Hnd|]. split; [|apply NoDup_singleton].
        intros x Hx Hx'. apply list_elem_of_singleton in Hx' as ->. contradiction. }
      destruct (IH _ Hnd2) as [Hnd' Hr]. split; [exact Hnd'|]. intros t.
      rewrite Hr, elem_of_app, list_elem_of_singleton, elem_of_cons. split.
      * intros [[H| ->]|[H H']]; tauto.
      * intros [H|[[->|H] H']]; tauto.
    + destruct (IH ex Hnd) as [Hnd' Hr]. split; [exact Hnd'|]. intros t.
      rewrite Hr, elem_of_cons. split; [tauto|].
      intros [H|[[->|H] H']]; [tauto|contradiction|tauto].
    + destruct (IH ex Hnd) as [Hnd' Hr]. split; [exact Hnd'|]. intros t.
      rewrite Hr, elem_of_cons. split; [tauto|].
      intros [H|[[->|H] H']]; [tauto|contradiction|tauto].
Qed.

Lemma excludes_outer (excl : list string) :
  forall (kvs : list (string * list string)) ex, NoDup ex ->
  let r := fold_left (fun exclude (kv : string * list string) =>
             fold_left (fun exclude tfield =>
                          if bool_decide (split_last_underscore tfield ∈ excl)
                             && negb (bool_decide (tfield ∈ exclude))
                          then (exclude ++ [tfield])%list else exclude) kv.2 exclude)
             kvs ex in
  NoDup r /\ forall t, t ∈ r <-> t ∈ ex \/
    (exists kv, kv ∈ kvs /\ t ∈ kv.2) /\ split_last_underscore t ∈ excl.
Proof.
  induction kvs as [|kv kvs IH]; intros ex Hnd; cbn zeta; cbn [fold_left].
  - split; [exact Hnd|]. intros t. split; [by left|].
    intros [H|[(kv & H & _) _]]; [exact H|by apply elem_of_nil in H].
  - destruct (excludes_inner excl kv.2 ex Hnd) as [Hnd1 Hr1].
    destruct (IH _ Hnd1) as [Hnd' Hr]. split; [exact Hnd'|]. intros t.
    rewrite Hr, Hr1. split.
    + intros [[H|[H H']]|[(kv' & Hkv' & H) H']].
      * by left.
      * right. split; [|exact H']. exists kv. split; [apply elem_of_cons; by left|exact H].
      * right. split; [|exact H']. exists kv'. split; [apply elem_of_cons; by right|exact H].
    + intros [H|[(kv' & Hkv' & H) H']]; [by left; left|].
      apply elem_of_cons in Hkv' as [->|Hkv']; [by left; right|].
      right. split; [|exact H']. by exists kv'.
Qed.

(** [get_translation_field_excludes(exclude_languages)] lists, without
    repetition, exactly the translation fields of
    [localized_fieldnames] whose suffix after the last underscore is one
    of [exclude_languages]; with [exclude_languages=None] it is empty. *)
Theorem get_translation_field_excludes_spec (loc : gmap string (list string))
    (langs : list string) :
  NoDup (get_translation_field_excludes loc (Some langs)) /\
  (forall t, t ∈ get_translation_field_excludes loc (Some langs) <->
     (exists o ts, loc !! o = Some ts /\ t ∈ ts) /\
     split_last_underscore t ∈ langs) /\
  get_translation_field_excludes loc None = [].
Proof.
  assert (Hex : forall excl, NoDup (get_translation_field_excludes loc excl) /\
    forall t, t ∈ get_translation_field_excludes loc excl <->
      (exists o ts, loc !! o = Some ts /\ t ∈ ts) /\
      split_last_underscore t ∈ match excl with
                                | Some ((_ :: _) as ls) => ls
                                | _ => []
                                end).
  { intros excl. unfold get_translation_field_excludes.
    destruct (excludes_outer (match excl with Some ((_ :: _) as ls) => ls | _ => [] end)
                (map_to_list loc) [] (NoDup_nil_2)) as [Hnd Hr].
    split; [exact Hnd|]. intros t. rewrite Hr. split.
    - intros [H|[([o ts] & Hkv & Ht) Hl]]; [by apply elem_of_nil in H|].
      split; [|exact Hl]. apply elem_of_map_to_list in Hkv. by exists o, ts.
    - intros [(o & ts & Ho & Ht) Hl]. right. split; [|exact Hl].
      exists (o, ts). split; [by apply elem_of_map_to_list|exact Ht]. }
  destruct (Hex (Some langs)) as [Hnd Hr]. split; [exact Hnd|]. split.
  - intros t. rewrite Hr. by destruct langs.
  - destruct (Hex None) as [_ Hr0].
    destruct (get_translation_field_excludes loc None) as [|t ts]; [reflexivity|].
    exfalso. destruct (proj1 (Hr0 t)) as [_ Hl]; [apply elem_of_cons; by left|].
    by apply elem_of_nil in Hl.
Qed.

Lemma py_index_lookup (x : string) (l : list string) (i : nat) :
  py_index x l = Some i -> l !! i = Some x.
Proof.
  revert i. induction l as [|y l IH]; intros i H; [discriminate|].
  cbn in H. destruct (bool_decide_reflect (x = y)) as [->|Hne].
  - by injection H as <-.
  - destruct (py_index x l) as [n|] eqn:Hn; [|discriminate].
    injection H as <-. exact (IH n eq_refl).
Qed.

Lemma py_index_app_notin (x : string) (A B : list string) :
  x ∉ A -> py_index x (A ++ x :: B)%list = Some (length A).
Proof.
  induction A as [|y A IH]; intros Hx; cbn.
  - by rewrite bool_decide_true.
  - rewrite bool_decide_false by (intros ->; apply Hx, elem_of_cons; by left).
    rewrite IH; [reflexivity|]. intros H. apply Hx, elem_of_cons. by right.
Qed.

Lemma slice_elem_sub (l t : list string) (i j : nat) (y : string) :
  y ∈ (take i l ++ t ++ drop j l)%list -> y ∈ l \/ y ∈ t.
Proof.
  rewrite !elem_of_app. intros [H|[H|H]].
  - left. exact (subseteq_take i l y H).
  - by right.
  - left. exact (subseteq_drop j l y H).
Qed.

Lemma slice_keeps_others (l t : list string) (i : nat) (x y : string) :
  l !! i = Some x -> y ∈ l -> y <> x -> y ∈ (take i l ++ t ++ drop (S i) l)%list.
Proof.
  intros Hi Hy Hne. rewrite <- (take_drop_middle l i x Hi) in Hy.
  rewrite !elem_of_app. rewrite elem_of_app, elem_of_cons in Hy. tauto.
Qed.

Lemma patch_list_editable_loop_ok (trans : list string)
    (gtf : string -> bool -> list string) :
  forall orig A dn, NoDup orig -> (forall x, x ∈ orig -> x ∉ A) ->
  (forall f, f ∈ orig -> f ∈ trans -> f ∈ dn) ->
  (forall x f, f ∈ orig -> f ∉ gtf x false) ->
  exists dn', patch_list_editable_loop trans gtf orig (A ++ orig)%list dn =
    Ok ((A ++ flat_map (fun f => if bool_decide (f ∈ trans) then gtf f false
                                 else [f]) orig)%list, dn').
Proof.
  induction orig as [|f rest IH]; intros A dn Hnd HA Hdn Hfresh.
  - exists dn. cbn. by rewrite app_nil_r.
  - apply NoDup_cons in Hnd as [Hf Hnd]. cbn [patch_list_editable_loop flat_map].
    assert (HfA : f ∉ A) by (apply HA, elem_of_cons; by left).
    destruct (bool_decide_reflect (f ∈ trans)) as [Ht|Ht].
    + rewrite py_index_app_notin by exact HfA.
      destruct (py_index_elem f dn) as (di & Hdi & Hldi);
        [apply Hdn; [apply elem_of_cons; by left|exact Ht]|].
      rewrite Hdi.
      assert (Hd : drop (S (length A)) (A ++ f :: rest)%list = rest)
        by (clear; induction A as [|a A IH]; [reflexivity|exact IH]).
      rewrite take_app_length, Hd.
      destruct (IH (A ++ gtf f false)%list
                  (take di dn ++ gtf f false ++ drop (S di) dn)%list Hnd)
        as (dn' & Hloop).
      * intros x Hx. rewrite elem_of_app. intros [H|H].
        -- apply (HA x); [apply elem_of_cons; by right|exact H].
        -- apply (Hfresh f x); [apply elem_of_cons; by right|exact H].
      * intros x Hx Hxt. apply (slice_keeps_others dn _ di f x Hldi).
        -- apply Hdn; [apply elem_of_cons; by right|exact Hxt].
        -- intros ->. contradiction.
      * intros x g Hg. apply Hfresh. apply elem_of_cons; by right.
      * exists dn'. rewrite <- app_assoc in Hloop. rewrite Hloop.
        by rewrite app_assoc.
    + destruct (IH (A ++ [f])%list dn Hnd) as (dn' & Hloop).
      * intros x Hx. rewrite elem_of_app, list_elem_of_singleton. intros [H| ->].
        -- apply (HA x); [apply elem_of_cons; by right|exact H].
        -- contradiction.
      * intros x Hx Hxt. apply Hdn; [apply elem_of_cons; by right|exact Hxt].
      * intros x g Hg. apply Hfresh. apply elem_of_cons; by right.
      * exists dn'. rewrite <- app_assoc in Hloop. cbn in Hloop. rewrite Hloop.
        by rewrite <- app_assoc.
Qed.

(** When [list_editable] has no repeated entry, every translated entry is
    also in [list_display], and no translation field is itself an entry of
    [list_editable], [_patch_list_editable] does not raise and replaces
    each translated entry of [list_editable] by its translation fields, in
    place. *)
Theorem patch_list_editable_ok (trans : list string)
    (gtf : string -> bool -> list string) (le ld : list string)
    (Hnd : NoDup le) (Hdn : forall f, f ∈ le -> f ∈ trans -> f ∈ ld)
    (Hfresh : forall x f, f ∈ le -> f ∉ gtf x false) :
  exists ld', patch_list_editable trans gtf le ld =
    Ok (flat_map (fun f => if bool_decide (f ∈ trans) then gtf f false else [f]) le,
        ld').
Proof.
  destruct le as [|x xs]; [by exists ld|].
  destruct (patch_list_editable_loop_ok trans gtf (x :: xs) [] ld Hnd
              (fun y _ H => not_elem_of_nil y H) Hdn Hfresh) as (ld' & H).
  exists ld'. exact H.
Qed.

Lemma patch_list_editable_loop_missing (trans : list string)
    (gtf : string -> bool -> list string) (f : string) (Ht : f ∈ trans)
    (Hfresh : forall x, f ∉ gtf x false) :
  forall orig en dn, f ∈ orig -> f ∉ dn ->
  patch_list_editable_loop trans gtf orig en dn = Err ValueError.
Proof.
  induction orig as [|x rest IH]; intros en dn Hf Hdn; [by apply elem_of_nil in Hf|].
  cbn. destruct (bool_decide_reflect (x ∈ trans)) as [Hx|Hx].
  - destruct (py_index x en) as [i|]; [|reflexivity].
    destruct (py_index x dn) as [di|] eqn:Hdi; [|reflexivity].
    apply py_index_lookup in Hdi.
    assert (Hxf : x <> f) by (intros ->; apply Hdn; by eapply list_elem_of_lookup_2).
    apply IH.
    + apply elem_of_cons in Hf as [->|Hf]; [contradiction|exact Hf].
    + intros H. apply slice_elem_sub in H as [H|H]; [exact (Hdn H)|exact (Hfresh x H)].
  - apply elem_of_cons in Hf as [->|Hf]; [contradiction|]. exact (IH en dn Hf Hdn).
Qed.

(** [_patch_list_editable] raises [ValueError] when a translated entry of
    [list_editable] is missing from [list_display] (and is no translation
    field of any field). *)
Theorem patch_list_editable_not_displayed (trans : list string)
    (gtf : string -> bool -> list string) (le ld : list string) (f : string)
    (Hf : f ∈ le) (Ht : f ∈ trans) (Hnot : f ∉ ld)
    (Hfresh : forall x, f ∉ gtf x false) :
  patch_list_editable trans gtf le ld = Err ValueError.
Proof.
  destruct le as [|x xs]; [by apply elem_of_nil in Hf|].
  exact (patch_list_editable_loop_missing trans gtf f Ht Hfresh _ _ _ Hf Hnot).
Qed.

Ltac by_decide :=
  match goal with |- ?P => apply (bool_decide_unpack P) end; vm_compute; exact I.

Lemma descr_get_other_language_after_set_witness :
  descr_get Sample.d_title "en"
    (Some (descr_set Sample.d_title "de" Sample.inst_de_other (PStr "new"))) =
  Ok (PStr "new").
Proof.
  rewrite (descr_get_other_language_after_set Sample.d_title "de" "en"
             Sample.inst_de_other (PStr "new") PNone).
  - vm_compute. reflexivity.
  - discriminate.
  - vm_compute. reflexivity.
Defined.

Lemma fd_get_wraps_witness :
  fd_get "image" "en" (Some (<["image_de" := FVStr "a.png"]> ∅)) =
    (Err KeyError, Some (<["image_de" := FVStr "a.png"]> ∅)) /\
  exists n w c,
    fd_get "image" "en" (Some (<["image_en" := FVFile (Some "b.png")]> ∅)) =
      (Ok (FVFieldFile n w true c),
       Some (<["image_en" := FVFieldFile n w true c]>
               (<["image_en" := FVFile (Some "b.png")]> ∅))) /\
    n = Some "b.png" /\ w = Some (Some "b.png") /\ c = false.
Proof.
  split.
  - destruct (fd_get_wraps "image" "en" (<["image_de" := FVStr "a.png"]> ∅))
      as (_ & H & _).
    apply H. vm_compute. reflexivity.
  - destruct (fd_get_wraps "image" "en" (<["image_en" := FVFile (Some "b.png")]> ∅))
      as (_ & _ & H).
    exact (H (FVFile (Some "b.png")) ltac:(vm_compute; reflexivity)
             ltac:(discriminate)).
Defined.


Lemma build_rev_inverse_witness :
  build_rev (<["title" := ["title_de"; "title_en"]]> ∅) !! "title_en" = Some "title".
Proof.
  destruct (build_rev_inverse (<["title" := ["title_de"; "title_en"]]> ∅)) as [_ H].
  apply (H "title" ["title_de"; "title_en"]).
  - apply lookup_insert_eq.
  - by_decide.
  - intros o' ts' Ho _. apply lookup_insert_Some in Ho as [[-> _]|[_ Ho]];
      [reflexivity|by rewrite lookup_empty in Ho].
Defined.



Lemma unregister_ok_iff_witness :
  fst (unregister ["A"; "A"] Sample.st_abc) <> Ok tt.
Proof.
  intros H. apply unregister_ok_iff in H as [Hnd _].
  apply NoDup_cons in Hnd as [Hin _]. apply Hin. apply elem_of_cons. by left.
Defined.

Lemma unregister_ok_state_witness :
  exists r', unregister ["A"] Sample.st_abc =
    (Ok tt, mk_tstate (t_classes Sample.st_abc) r' (t_connected Sample.st_abc)) /\
    forall k, r' !! k = if bool_decide (k ∈ ["A"]) then None
                        else t_registry Sample.st_abc !! k.
Proof.
  apply unregister_ok_state.
  - apply NoDup_singleton.
  - intros m Hm. mem_cases. exists Sample.a_entry. vm_compute. reflexivity.
Defined.

Lemma unregister_fails_partially_witness :
  exists r', unregister ["A"; "B"; "A"] Sample.st_abc =
    (Err NotRegistered,
     mk_tstate (t_classes Sample.st_abc) r' (t_connected Sample.st_abc)) /\
    forall k, r' !! k = if bool_decide (k ∈ ["A"]) then None
                        else t_registry Sample.st_abc !! k.
Proof.
  apply (unregister_fails_partially ["A"] ["A"] "B" Sample.st_abc).
  - apply NoDup_singleton.
  - intros m Hm. mem_cases. exists Sample.a_entry. vm_compute. reflexivity.
  - right. vm_compute. reflexivity.
Defined.


Lemma get_options_no_registered_parent_witness :
  get_options_for_model "B" Sample.st_abc0 = (Err NotRegistered, Sample.st_abc0).
Proof.
  apply get_options_no_registered_parent.
  - reflexivity.
  - intros c p _ _. apply lookup_empty.
Defined.

Lemma get_options_inherited_fields_witness :
  NoDup (o_fields Sample.b_opts) /\
  forall f, f ∈ o_fields Sample.b_opts <->
    exists c p po, t_classes Sample.st_abc !! "B" = Some c /\ p ∈ m_parents c /\
                   t_registry Sample.st_abc !! p = Some po /\ f ∈ o_fields po.
Proof.
  destruct (get_options_inherited_fields "B" Sample.st_abc Sample.st_abc Sample.b_opts)
    as (_ & _ & Hnd & H).
  - vm_compute. reflexivity.
  - vm_compute. reflexivity.
  - exact (conj Hnd H).
Defined.

Lemma add_translation_fields_unregistered_witness :
  add_translation_fields ["title"] Sample.title_translation_fields ["url"; "slug"] =
  Ok ["url"; "slug"].
Proof.
  apply add_translation_fields_unregistered. intros x Hx. mem_cases; by_decide.
Defined.

Lemma add_translation_fields_covers_witness :
  exists r, add_translation_fields ["title"] Sample.title_translation_fields
              ["title"; "url"] = Ok r /\
    "url" ∈ r /\ "title_en" ∈ r /\ "slug" ∉ r.
Proof.
  destruct (add_translation_fields_covers ["title"] Sample.title_translation_fields)
    with (option := ["title"; "url"]) as (r & Hr & Hsub & Hcov & Hback).
  - intros f Hf. mem_cases. by_decide.
  - exists r. split; [exact Hr|]. split; [apply Hsub; by_decide|]. split.
    + apply (Hcov "title"); by_decide.
    + intros Hs. destruct (Hback "slug" Hs) as [H|(x & Hx & Hxt & H)].
      * revert H. by_decide.
      * mem_cases; revert H; by_decide.
Defined.

Lemma patch_prepopulated_fields_ok_witness :
  exists pf', patch_prepopulated_fields ["title"] Sample.title_translation_fields
                (<["slug" := ["title"]]> ∅) = Some pf' /\
    pf' !! "slug" = Some ["title_de"].
Proof.
  destruct (patch_prepopulated_fields_ok ["title"] Sample.title_translation_fields
              (<["slug" := ["title"]]> ∅)) as (pf' & Hp & Hk).
  - intros k v Hk. apply lookup_insert_Some in Hk as [[_ <-]|[_ Hk]];
      [|by rewrite lookup_empty in Hk].
    split; [discriminate|]. intros v0 rest Hv _. injection Hv as <- _.
    vm_compute. discriminate.
  - exists pf'. split; [exact Hp|]. rewrite Hk. vm_compute. reflexivity.
Defined.

Lemma patch_prepopulated_fields_index_error_witness :
  patch_prepopulated_fields ["title"] Sample.title_translation_fields
    (<["slug" := []]> (<["code" := ["title"]]> ∅)) = None.
Proof.
  apply (patch_prepopulated_fields_index_error _ _ _ "slug" []).
  - apply lookup_insert_eq.
  - by left.
Defined.

Lemma split_last_underscore_build_witness :
  split_last_underscore (build_localized_fieldname "created_at" "en") = "en".
Proof.
  apply split_last_underscore_build. intros n c H.
  destruct n as [|[|n]]; cbn in H.
  - injection H as <-. discriminate.
  - injection H as <-. discriminate.
  - discriminate.
Defined.

Lemma get_translation_field_excludes_spec_witness :
  "title_en" ∈ get_translation_field_excludes
                 (<["title" := ["title_de"; "title_en"]]> ∅) (Some ["en"]).
Proof.
  destruct (get_translation_field_excludes_spec
              (<["title" := ["title_de"; "title_en"]]> ∅) ["en"]) as (_ & H & _).
  apply H. split.
  - exists "title", ["title_de"; "title_en"]. split; [apply lookup_insert_eq|by_decide].
  - by_decide.
Defined.

Lemma patch_list_editable_ok_witness :
  exists ld', patch_list_editable ["title"] Sample.title_translation_fields
                ["title"; "number"] ["id"; "title"; "number"] =
    Ok (["title_de"; "title_en"; "number"], ld').
Proof.
  destruct (patch_list_editable_ok ["title"] Sample.title_translation_fields
              ["title"; "number"] ["id"; "title"; "number"]) as (ld' & H).
  - by_decide.
  - intros f Hf _. mem_cases; by_decide.
  - intros x f Hf. unfold Sample.title_translation_fields. cbn [app].
    destruct (bool_decide_reflect (x = "title")) as [->|_]; mem_cases; by_decide.
  - exists ld'. rewrite H. vm_compute. reflexivity.
Defined.

Lemma patch_list_editable_not_displayed_witness :
  patch_list_editable ["title"] Sample.title_translation_fields
    ["title"; "number"] ["id"; "number"] = Err ValueError.
Proof.
  apply (patch_list_editable_not_displayed _ _ _ _ "title").
  - by_decide.
  - by_decide.
  - by_decide.
  - intros x. unfold Sample.title_translation_fields. cbn [app].
    destruct (bool_decide_reflect (x = "title")) as [->|_]; by_decide.
Defined.
